(** * ConnSailLib: the geodesic engine and the track generator of [conn.hh]

    A shallow embedding of the single-header library [conn.hh].

    - [double] is read as a real number ([R]): every arithmetic operation of
      the header is the exact operation, [floor], [fmod], [sqrt], [asin] and
      [atan2] are the mathematical functions the C library approximates, and
      a decimal literal denotes the number it writes.  There is no NaN: where
      the C library returns one ([sqrt] below 0, [asin] outside [-1, 1]) the
      functions of the reals are total, and [atan2 0 0] is 0.
    - [std::vector<T>] is [list T]; [v[i]] outside the vector is undefined
      behaviour and is kept apart from a thrown [std::runtime_error].
    - [std::size_t] counters are natural numbers, and the loop
      [for (i = a; i <= n; ++i)] visits [seq a ...] in order; the counters
      do not wrap, a track of that many points being beyond any memory.
    - the track generators receive the track by reference and push to it;
      here they take the track and return the extended one.
    - the namespace [conn] is the module [conn]; an overload that a name
      cannot tell apart carries the type of its argument in its name.
    - the module [binary64] holds the conversions between decimal degrees
      and degrees, minutes and seconds a second time, on the doubles
      themselves: they use sums, products, quotients and [floor] only,
      which round as the machine does, and there every whole second
      counts. *)

From Stdlib Require Import PrimFloat.
From Stdlib Require Import Reals Lra Lia List String Ascii ZArith Bool Arith.
From Stdlib Require Import DecimalString Machin.
Import ListNotations.

#[local] Open Scope R_scope.

(** * What the header takes from C++ *)

(** ** Outcomes of a call *)

Inductive outcome (A : Type) : Type :=
| Returns (a : A)
| Throws (what : string)
| Undefined.

Arguments Returns {A} a.
Arguments Throws {A} what.
Arguments Undefined {A}.

Definition bind {A B : Type} (m : outcome A) (k : A -> outcome B) : outcome B :=
  match m with
  | Returns a => k a
  | Throws what => Throws what
  | Undefined => Undefined
  end.

Notation "x <- m ;; k" := (bind m (fun x => k))
  (at level 61, m at next level, right associativity).
Notation "m ;;; k" := (bind m (fun _ => k))
  (at level 61, right associativity).

(** [v[i]] on a [std::vector]. *)
Definition at_index {A : Type} (v : list A) (i : nat) : outcome A :=
  match nth_error v i with
  | Some a => Returns a
  | None => Undefined
  end.

(** [v[v.size() - 1]]: on an empty vector the index wraps and the access is
    out of range. *)
Definition back {A : Type} (v : list A) : outcome A :=
  match v with
  | [] => Undefined
  | _ :: _ => at_index v (List.length v - 1)
  end.

(** A counted [for] loop over [indices], threading the loop state. *)
Fixpoint for_each {S : Type} (indices : list nat)
    (body : nat -> S -> outcome S) (s : S) : outcome S :=
  match indices with
  | [] => Returns s
  | i :: rest => s' <- body i s ;; for_each rest body s'
  end.

(** ** Numbers *)

Abbreviation double := R (only parsing).

Definition floor (x : double) : double := IZR (Zfloor x).

(** Integer part towards zero, as in C's [trunc]. *)
Definition trunc (x : double) : Z :=
  if Rle_dec 0 x then Zfloor x else Zceil x.

(** C's [fmod]: [x - n * y] with [n] the quotient rounded towards zero. *)
Definition fmod (x y : double) : double := x - IZR (trunc (x / y)) * y.

(** C's [atan2] on the reals. *)
Definition atan2 (y x : double) : double :=
  if Rlt_dec 0 x then atan (y / x)
  else if Rlt_dec x 0 then
    (if Rle_dec 0 y then atan (y / x) + PI else atan (y / x) - PI)
  else if Rlt_dec 0 y then PI / 2
  else if Rlt_dec y 0 then - (PI / 2)
  else 0.

(** ** Integers and strings *)

(** The least and the greatest [int], on 32 bits. *)
Definition INT_MIN : Z := (- 2 ^ 31)%Z.
Definition INT_MAX : Z := (2 ^ 31 - 1)%Z.

(** The cast [(int) x]: the fractional part is dropped, and a value that no
    [int] holds is undefined behaviour. *)
Definition int_of_double (x : double) : outcome Z :=
  let z := trunc x in
  if ((INT_MIN <=? z)%Z && (z <=? INT_MAX)%Z)%bool
  then Returns z
  else Undefined.

(** [std::to_string] on an [int]: the decimal digits, after a minus sign
    below zero. *)
Definition to_string (z : Z) : string :=
  NilZero.string_of_int (Z.to_int z).

(** The string literals of the header: the masculine ordinal sign, which the
    header writes for the degree sign, is two bytes in UTF-8. *)
Definition degree_mark : string :=
  String "194"%char (String "186"%char (String " "%char EmptyString)).
Definition minute_mark : string :=
  String "'"%char (String " "%char EmptyString).
Definition second_mark : string := String "034"%char EmptyString.

(** * The header *)

Module conn.

(** ** Library constants *)

Definition pi : double := 3.1415926535798932384626433.
Definition earthRadius : double := 6371000.
Definition semiMajorEarthAxis : double := 6378137.
Definition semiMinorEarthAxis : double := 6356752.314245.

(** ** Test functions *)

Definition GPSCoordinate : Type := list double.
Definition GPSPoint : Type := list (list double).

Definition failIfNotAGPSCoordinate (coordinate : GPSCoordinate) : outcome unit :=
  if negb (3 =? List.length coordinate)%nat
  then Throws "GPS coordinate should have 3 values."%string
  else Returns tt.

Definition failIfNotAGPSPoint (point : GPSPoint) : outcome unit :=
  if negb (2 =? List.length point)%nat
  then Throws "GPS point should have 2 coordinates."%string
  else
    point0 <- at_index point 0 ;;
    failIfNotAGPSCoordinate point0 ;;;
    point1 <- at_index point 1 ;;
    failIfNotAGPSCoordinate point1.

(** ** Convert functions *)

Definition radiansFromDegrees (degrees : double) : double :=
  degrees * pi / 180.

Definition degreesFromRadians (radians : double) : double :=
  radians * 180 / pi.

Definition degreesFromGPSCoordinate (coordinate : GPSCoordinate)
    : outcome double :=
  failIfNotAGPSCoordinate coordinate ;;;
  c0 <- at_index coordinate 0 ;;
  c1 <- at_index coordinate 1 ;;
  c2 <- at_index coordinate 2 ;;
  Returns (c0 + c1 / 60 + c2 / (60 * 60)).

Definition radiansFromGPSCoordinate (coordinate : GPSCoordinate)
    : outcome double :=
  d <- degreesFromGPSCoordinate coordinate ;;
  Returns (radiansFromDegrees d).

Definition degreesFromGPSPoint (point : GPSPoint) : outcome (list double) :=
  failIfNotAGPSPoint point ;;;
  point0 <- at_index point 0 ;;
  d0 <- degreesFromGPSCoordinate point0 ;;
  point1 <- at_index point 1 ;;
  d1 <- degreesFromGPSCoordinate point1 ;;
  Returns [d0; d1].

Definition radiansFromGPSPoint (point : GPSPoint) : outcome (list double) :=
  failIfNotAGPSPoint point ;;;
  point0 <- at_index point 0 ;;
  d0 <- degreesFromGPSCoordinate point0 ;;
  point1 <- at_index point 1 ;;
  d1 <- degreesFromGPSCoordinate point1 ;;
  Returns [radiansFromDegrees d0; radiansFromDegrees d1].

Definition gpsCoordinateFromDegrees (income : double) : GPSCoordinate :=
  let degrees := floor income in
  let minutes := floor ((income - degrees) * 60) in
  let seconds := floor ((income - degrees - minutes / 60) * 3600) in
  [degrees; minutes; seconds].

Definition gpsCoordinateFromRadians (income : double) : GPSCoordinate :=
  gpsCoordinateFromDegrees (degreesFromRadians income).

Definition gpsPointFromDegrees (latitude longitude : double) : GPSPoint :=
  [gpsCoordinateFromDegrees latitude; gpsCoordinateFromDegrees longitude].

Definition gpsPointFromRadians (latitude longitude : double) : GPSPoint :=
  [gpsCoordinateFromDegrees latitude; gpsCoordinateFromDegrees longitude].

(** [stringFromGPSCoordinate(coordinate)]. *)
Definition stringFromGPSCoordinate (coordinate : GPSCoordinate)
    : outcome string :=
  failIfNotAGPSCoordinate coordinate ;;;
  c0 <- at_index coordinate 0 ;;
  i0 <- int_of_double c0 ;;
  c1 <- at_index coordinate 1 ;;
  i1 <- int_of_double c1 ;;
  c2 <- at_index coordinate 2 ;;
  i2 <- int_of_double c2 ;;
  Returns (to_string i0 ++ degree_mark
           ++ to_string i1 ++ minute_mark
           ++ to_string i2 ++ second_mark)%string.

(** [stringFromGPSCoordinate(coordinate, itIsLatitude)]. *)
Definition stringFromGPSCoordinate_hemisphere (coordinate : GPSCoordinate)
    (itIsLatitude : bool) : outcome string :=
  text <- stringFromGPSCoordinate coordinate ;;
  c0 <- at_index coordinate 0 ;;
  Returns
    (if itIsLatitude
     then (if Rgt_dec c0 0 then text ++ " N" else text ++ " S")
     else (if Rgt_dec c0 0 then text ++ " E" else text ++ " W"))%string.

Definition stringFromGPSPoint (point : GPSPoint) : outcome string :=
  failIfNotAGPSPoint point ;;;
  point0 <- at_index point 0 ;;
  s0 <- stringFromGPSCoordinate_hemisphere point0 true ;;
  point1 <- at_index point 1 ;;
  s1 <- stringFromGPSCoordinate_hemisphere point1 false ;;
  Returns (s0 ++ " " ++ s1)%string.

(** ** Calculation functions *)

Definition calculateEarthRadius (latitude : double) : double :=
  let beta := radiansFromDegrees latitude in
  let a := semiMajorEarthAxis in
  let b := semiMinorEarthAxis in
  let A := (a * cos beta) ^ 2 in
  let B := (b * sin beta) ^ 2 in
  let radius := (a ^ 2 * A + b ^ 2 * B) / (A + B) in
  sqrt radius.

Definition calculateEarthRadius_GPSCoordinate (latitude : GPSCoordinate)
    : outcome double :=
  failIfNotAGPSCoordinate latitude ;;;
  d <- degreesFromGPSCoordinate latitude ;;
  Returns (calculateEarthRadius d).

Definition calculateEarthRadius_GPSPoint (point : GPSPoint) : outcome double :=
  failIfNotAGPSPoint point ;;;
  point0 <- at_index point 0 ;;
  d <- degreesFromGPSCoordinate point0 ;;
  Returns (calculateEarthRadius d).

(** [distance] on decimal degrees (Haversine). *)
Definition distance (latitude1 longitude1 latitude2 longitude2 : double)
    (shouldCalculateEarthRadius : bool) : double :=
  let radius :=
    if shouldCalculateEarthRadius
    then calculateEarthRadius (0.5 * (latitude1 + latitude2))
    else earthRadius in
  let latitude1 := radiansFromDegrees latitude1 in
  let longitude1 := radiansFromDegrees longitude1 in
  let latitude2 := radiansFromDegrees latitude2 in
  let longitude2 := radiansFromDegrees longitude2 in
  let deltaLatitude := latitude2 - latitude1 in
  let deltaLongitude := longitude2 - longitude1 in
  let a := sin (0.5 * deltaLatitude) ^ 2
           + cos latitude1 * cos latitude2 * sin (0.5 * deltaLongitude) ^ 2 in
  let b := 2 * atan2 (sqrt a) (sqrt (1 - a)) in
  radius * b.

(** [distance] on two GPS points.  The inner call passes four arguments, so
    its fifth takes the default [false]. *)
Definition distance_GPSPoint (point1 point2 : GPSPoint)
    (shouldCalculateEarthRadius : bool) : outcome double :=
  failIfNotAGPSPoint point1 ;;;
  failIfNotAGPSPoint point2 ;;;
  p10 <- at_index point1 0 ;;
  latitude1 <- degreesFromGPSCoordinate p10 ;;
  p11 <- at_index point1 1 ;;
  longitude1 <- degreesFromGPSCoordinate p11 ;;
  p20 <- at_index point2 0 ;;
  latitude2 <- degreesFromGPSCoordinate p20 ;;
  p21 <- at_index point2 1 ;;
  longitude2 <- degreesFromGPSCoordinate p21 ;;
  Returns (distance latitude1 longitude1 latitude2 longitude2 false).

Definition destination (latitude longitude distance bearing : double)
    (shouldCalculateEarthRadius : bool) : list double :=
  let radius :=
    if shouldCalculateEarthRadius
    then calculateEarthRadius latitude
    else earthRadius in
  let angularDistance := distance / radius in
  let bearing := radiansFromDegrees bearing in
  let latitude := radiansFromDegrees latitude in
  let longitude := radiansFromDegrees longitude in
  let sin1 := sin latitude in
  let cos1 := cos latitude in
  let sin2 := sin angularDistance in
  let cos2 := cos angularDistance in
  let sin3 := sin bearing in
  let cos3 := cos bearing in
  let sin4 := sin1 * cos2 + cos1 * sin2 * cos3 in
  let nextLatitude := asin sin4 in
  let y := sin3 * sin2 * cos1 in
  let x := cos2 - sin1 * sin4 in
  let nextLongitude := longitude + atan2 y x in
  [ degreesFromRadians nextLatitude;
    fmod (degreesFromRadians nextLongitude + 540) 360 - 180 ].

Definition destinationGPSPoint (latitude longitude distance bearing : double)
    (shouldCalculateEarthRadius : bool) : outcome GPSPoint :=
  let destination :=
    destination latitude longitude distance bearing
      shouldCalculateEarthRadius in
  d0 <- at_index destination 0 ;;
  d1 <- at_index destination 1 ;;
  Returns (gpsPointFromDegrees d0 d1).

(** ** Track functions *)

Definition Track : Type := list (list double).

(** [points.push_back(p)]. *)
Definition push_back (points : Track) (p : list double) : Track :=
  points ++ [p].

Definition line (points : Track) (length angle : double)
    (numberOfPoints : nat) : outcome Track :=
  pole <- back points ;;
  xOffset <- at_index pole 0 ;;
  yOffset <- at_index pole 1 ;;
  let xLength := length * sin angle in
  let yLength := length * cos angle in
  for_each (seq 1 numberOfPoints)
    (fun i points =>
       let cut := INR i / INR numberOfPoints in
       Returns (push_back points
                  [xOffset + cut * xLength; yOffset + cut * yLength]))
    points.

(** The loop state of [rectangle] is the track with the two locals the body
    updates. *)
Definition rectangle (points : Track) (width height angle : double)
    (numberOfPoints : nat) : outcome Track :=
  st <- for_each (seq 0 4)
    (fun i '(points, length, angle) =>
       points <- line points length angle numberOfPoints ;;
       let angle := angle + 0.5 * pi in
       let length := if (0 =? i mod 2)%nat then height else width in
       Returns (points, length, angle))
    (points, width, angle) ;;
  Returns (fst (fst st)).

Definition square (points : Track) (length angle : double)
    (numberOfPoints : nat) : outcome Track :=
  rectangle points length length angle numberOfPoints.

Definition spiral (points : Track)
    (initialRadius initialAngle finishRadius finishAngle : double)
    (numberOfPoints : nat) : outcome Track :=
  pole <- back points ;;
  pole0 <- at_index pole 0 ;;
  let xOffset := pole0 - initialRadius * sin initialAngle in
  pole1 <- at_index pole 1 ;;
  let yOffset := pole1 - initialRadius * cos initialAngle in
  for_each (seq 1 numberOfPoints)
    (fun i points =>
       let cut := INR i / INR numberOfPoints in
       let radius := initialRadius + cut * (finishRadius - initialRadius) in
       let angle := initialAngle + cut * (finishAngle - initialAngle) in
       Returns (push_back points
                  [xOffset + radius * sin angle; yOffset + radius * cos angle]))
    points.

Definition sector (points : Track) (radius initialAngle finishAngle : double)
    (numberOfPoints : nat) : outcome Track :=
  spiral points radius initialAngle radius finishAngle numberOfPoints.

Definition circle (points : Track) (radius angle : double)
    (numberOfPoints : nat) : outcome Track :=
  spiral points radius angle radius (angle + 2 * pi) numberOfPoints.

(** The loop [for (i = 1; i < numberOfLines; ++i)] of [squiggle] carries the
    track, [angle], [nextAngle] and [initialRotationAngle]. *)
Definition squiggle (points : Track) (length radius angle rotationAngle : double)
    (numberOfLines numberOfPoints : nat) : outcome Track :=
  points <- line points length angle numberOfPoints ;;
  let nextAngle := angle + rotationAngle in
  let initialRotationAngle := -0.5 * pi in
  st <- for_each (seq 1 (numberOfLines - 1))
    (fun i '(points, angle, nextAngle, initialRotationAngle) =>
       points <- sector points radius
                   (angle + initialRotationAngle)
                   (nextAngle + initialRotationAngle)
                   numberOfPoints ;;
       let angle := nextAngle in
       let initialRotationAngle := initialRotationAngle * -1 in
       points <- line points length angle numberOfPoints ;;
       let nextAngle :=
         if (0 =? i mod 2)%nat
         then nextAngle + rotationAngle
         else nextAngle - rotationAngle in
       Returns (points, angle, nextAngle, initialRotationAngle))
    (points, angle, nextAngle, initialRotationAngle) ;;
  Returns (fst (fst (fst st))).

Definition letterPi (points : Track)
    (verticalLength horizontalLength radius angle : double)
    (numberOfPoints : nat) : outcome Track :=
  let angle := angle + pi in
  let rotationAngle := -0.5 * pi in
  points <- sector points radius angle (angle + rotationAngle)
              numberOfPoints ;;
  let angle := angle + 2 * rotationAngle in
  points <- line points verticalLength angle numberOfPoints ;;
  let angle := angle - rotationAngle in
  let rotationAngle := rotationAngle * 3 in
  points <- sector points radius angle (angle + rotationAngle)
              numberOfPoints ;;
  points <- line points horizontalLength angle numberOfPoints ;;
  let angle := angle + - rotationAngle / 3 in
  points <- sector points radius angle (angle + rotationAngle)
              numberOfPoints ;;
  points <- line points verticalLength angle numberOfPoints ;;
  let rotationAngle := rotationAngle / 3 in
  let angle := angle - rotationAngle in
  sector points radius angle (angle + rotationAngle) numberOfPoints.

End conn.

Import conn.

(** * The conversions on binary64 *)

Module binary64.

(** From [2 ^ 52] on every double is a whole number. *)
Definition two52 : float := 4503599627370496%float.

(** C's [floor].  Below [2 ^ 52] in absolute value, adding and taking away
    [2 ^ 52] on the side of [x] rounds [x] to a whole number, which is
    [floor x] or one more. *)
Definition floor (x : float) : float :=
  if (PrimFloat.abs x <? two52)%float then
    if (x =? 0)%float then x
    else
      let r := if (0 <? x)%float
               then ((x + two52) - two52)%float
               else ((x - two52) + two52)%float in
      if (x <? r)%float then (r - 1)%float else r
  else x.

Definition failIfNotAGPSCoordinate (coordinate : list float) : outcome unit :=
  if negb (3 =? List.length coordinate)%nat
  then Throws "GPS coordinate should have 3 values."%string
  else Returns tt.

Definition degreesFromGPSCoordinate (coordinate : list float)
    : outcome float :=
  failIfNotAGPSCoordinate coordinate ;;;
  c0 <- at_index coordinate 0 ;;
  c1 <- at_index coordinate 1 ;;
  c2 <- at_index coordinate 2 ;;
  Returns (c0 + c1 / 60 + c2 / (60 * 60))%float.

Definition gpsCoordinateFromDegrees (income : float) : list float :=
  let degrees := floor income in
  let minutes := floor ((income - degrees) * 60)%float in
  let seconds := floor ((income - degrees - minutes / 60) * 3600)%float in
  [degrees; minutes; seconds].

(** Converting a GPS coordinate to degrees and back. *)
Definition round_trip (coordinate : list float) : outcome (list float) :=
  d <- degreesFromGPSCoordinate coordinate ;;
  Returns (gpsCoordinateFromDegrees d).

End binary64.

(** * Notions of the specification *)

(** ** Tracks and their extension *)

(** A planar point holds an [x] and a [y]. *)
Definition PlanarPoint (p : list double) : Prop := List.length p = 2%nat.

(** The track a generator may be called on: at least the seed point, and
    planar points only. *)
Definition nonempty_track (points : Track) : Prop :=
  points <> [] /\ Forall PlanarPoint points.

(** [r] is a normal return of the track [points] with [n] planar points pushed
    behind it. *)
Definition extends (n : nat) (points : Track) (r : outcome Track) : Prop :=
  exists ext,
    r = Returns (points ++ ext) /\ List.length ext = n /\ Forall PlanarPoint ext.

Definition is_prefix (before after : Track) : Prop :=
  exists ext, after = before ++ ext.

(** The points [line] pushes, from the pole [(x, y)]. *)
Definition line_points (x y length angle : double) (numberOfPoints : nat)
    : Track :=
  map (fun i =>
         [ x + INR i / INR numberOfPoints * (length * sin angle);
           y + INR i / INR numberOfPoints * (length * cos angle) ])
      (seq 1 numberOfPoints).

(** The points [spiral] pushes, from the pole [(x, y)]. *)
Definition spiral_points (x y r0 a0 r1 a1 : double) (numberOfPoints : nat)
    : Track :=
  map (fun i =>
         let cut := INR i / INR numberOfPoints in
         [ x - r0 * sin a0
             + (r0 + cut * (r1 - r0)) * sin (a0 + cut * (a1 - a0));
           y - r0 * cos a0
             + (r0 + cut * (r1 - r0)) * cos (a0 + cut * (a1 - a0)) ])
      (seq 1 numberOfPoints).

(** The eight track generators with their arguments, and a call of one of
    them on a track. *)
Inductive primitive : Type :=
| Line (length angle : double) (numberOfPoints : nat)
| Rectangle (width height angle : double) (numberOfPoints : nat)
| Square (length angle : double) (numberOfPoints : nat)
| Spiral (initialRadius initialAngle finishRadius finishAngle : double)
    (numberOfPoints : nat)
| Sector (radius initialAngle finishAngle : double) (numberOfPoints : nat)
| Circle (radius angle : double) (numberOfPoints : nat)
| Squiggle (length radius angle rotationAngle : double)
    (numberOfLines numberOfPoints : nat)
| LetterPi (verticalLength horizontalLength radius angle : double)
    (numberOfPoints : nat).

Definition call (g : primitive) (points : Track) : outcome Track :=
  match g with
  | Line l a n => line points l a n
  | Rectangle w h a n => rectangle points w h a n
  | Square l a n => square points l a n
  | Spiral r0 a0 r1 a1 n => spiral points r0 a0 r1 a1 n
  | Sector r a0 a1 n => sector points r a0 a1 n
  | Circle r a n => circle points r a n
  | Squiggle l r a rot k n => squiggle points l r a rot k n
  | LetterPi v h r a n => letterPi points v h r a n
  end.

(** How many points a call pushes. *)
Definition pushed (g : primitive) : nat :=
  match g with
  | Line _ _ n | Spiral _ _ _ _ n | Sector _ _ _ n | Circle _ _ n => n
  | Rectangle _ _ _ n | Square _ _ n => 4 * n
  | Squiggle _ _ _ _ k n => n + (k - 1) * (n + n)
  | LetterPi _ _ _ _ n => 7 * n
  end.

(** ** Shapes and thrown errors *)

Definition raises {A : Type} (r : outcome A) : Prop :=
  exists what, r = Throws what.

(** The decomposition the specification gives for a decimal degree [d], in
    exact arithmetic: degrees are [floor d], minutes
    [floor ((d - degrees) * 60)], and seconds
    [floor ((d - degrees - minutes / 60) * 3600)]. *)
Definition truncated_dms (d : double) : GPSCoordinate :=
  [ floor d;
    floor ((d - floor d) * 60);
    floor ((d - floor d - floor ((d - floor d) * 60) / 60) * 3600) ].

(** The components of what [destination] returns. *)
Definition latitude_of (destination : list double) : double :=
  nth 0 destination 0.
Definition longitude_of (destination : list double) : double :=
  nth 1 destination 0.

(** [destination] before its longitude is normalised. *)
Definition destination_unnormalised
    (latitude longitude distance bearing : double)
    (shouldCalculateEarthRadius : bool) : list double :=
  let radius :=
    if shouldCalculateEarthRadius
    then calculateEarthRadius latitude
    else earthRadius in
  let angularDistance := distance / radius in
  let bearing := radiansFromDegrees bearing in
  let latitude := radiansFromDegrees latitude in
  let longitude := radiansFromDegrees longitude in
  let sin1 := sin latitude in
  let cos1 := cos latitude in
  let sin2 := sin angularDistance in
  let cos2 := cos angularDistance in
  let sin3 := sin bearing in
  let cos3 := cos bearing in
  let sin4 := sin1 * cos2 + cos1 * sin2 * cos3 in
  let nextLatitude := asin sin4 in
  let y := sin3 * sin2 * cos1 in
  let x := cos2 - sin1 * sin4 in
  let nextLongitude := longitude + atan2 y x in
  [ degreesFromRadians nextLatitude; degreesFromRadians nextLongitude ].

(** ** Points on a circle *)

(** The planar point [p] lies at distance [|r|] from [(cx, cy)]. *)
Definition on_circle (cx cy r : double) (p : list double) : Prop :=
  exists px py, p = [px; py] /\ (px - cx) ^ 2 + (py - cy) ^ 2 = r ^ 2.


(** ** What a generator reads *)

(** The last point of the track holds at least [x] and [y]. *)
Definition has_pole (x y : double) (points : Track) : Prop :=
  exists rest, back points = Returns (x :: y :: rest).

(** The last point of the track, if there is one, holds no [x] and [y]. *)
Definition poleless (points : Track) : Prop :=
  forall x y rest, back points <> Returns (x :: y :: rest).

(** [f] pushes [n] planar points that depend on the pole alone. *)
Definition framed (n : nat) (f : Track -> outcome Track) : Prop :=
  forall x y, exists ext,
    Forall PlanarPoint ext /\ List.length ext = n
    /\ forall points, has_pole x y points -> f points = Returns (points ++ ext).

(** ** Whole triples on binary64 *)

(** The double of a whole number, binary digit by binary digit: exact below
    [2 ^ 53]. *)
Fixpoint whole_pos (p : positive) : float :=
  match p with
  | xH => 1%float
  | xO q => (2 * whole_pos q)%float
  | xI q => (2 * whole_pos q + 1)%float
  end.

Definition whole (z : Z) : float :=
  match z with
  | Z0 => 0%float
  | Zpos p => whole_pos p
  | Zneg p => (- whole_pos p)%float
  end.

(** The whole numbers [lo], [lo + 1], ..., [count] of them. *)
Definition whole_range (lo : Z) (count : nat) : list Z :=
  map (fun i => (lo + Z.of_nat i)%Z) (seq 0 count).

(** Degrees, minutes and seconds counted in seconds. *)
Definition in_seconds (D M S : float) : float := (D * 3600 + M * 60 + S)%float.

(** The round trip of [(D, M, S)] gives back its count of seconds, or one
    second less. *)
Definition back_or_one_short (D M S : float) : bool :=
  match binary64.round_trip [D; M; S] with
  | Returns [D'; M'; S'] =>
      ((in_seconds D' M' S' =? in_seconds D M S)%float
       || (in_seconds D' M' S' =? in_seconds D M S - 1)%float)%bool
  | _ => false
  end.

(** * Properties *)

Lemma at_index_planar (p : list double) :
  PlanarPoint p ->
  exists x y, p = [x; y] /\ at_index p 0 = Returns x /\ at_index p 1 = Returns y.
Proof.
  unfold PlanarPoint.
  destruct p as [|x [|y [|z p]]]; simpl; intros H; try discriminate.
  exists x, y. repeat split.
Qed.

Lemma back_snoc {A : Type} (v : list A) (a : A) : back (v ++ [a]) = Returns a.
Proof.
  unfold back, at_index.
  destruct (v ++ [a]) as [|b w] eqn:E.
  - destruct v; discriminate.
  - rewrite <- E, length_app. simpl.
    replace (List.length v + 1 - 1)%nat with (List.length v) by lia.
    rewrite nth_error_app2 by lia.
    rewrite Nat.sub_diag. reflexivity.
Qed.

Lemma back_nonempty_track (points : Track) :
  nonempty_track points ->
  exists x y, back points = Returns [x; y].
Proof.
  intros [Hne Hall].
  destruct (exists_last Hne) as [init [p ->]].
  apply Forall_app in Hall. destruct Hall as [_ Hp].
  inversion Hp as [|? ? Hpl _]; subst.
  destruct (at_index_planar p Hpl) as [x [y [-> _]]].
  exists x, y. apply back_snoc.
Qed.

Lemma nonempty_track_app (points ext : Track) :
  nonempty_track points -> Forall PlanarPoint ext ->
  nonempty_track (points ++ ext).
Proof.
  intros [Hne Hall] Hext. split.
  - destruct points; [contradiction | discriminate].
  - apply Forall_app. split; assumption.
Qed.

(** A loop whose body only pushes one point per index. *)
Lemma for_each_push (f : nat -> list double) (indices : list nat) :
  forall points : Track,
    for_each indices (fun i points => Returns (push_back points (f i))) points
    = Returns (points ++ map f indices).
Proof.
  induction indices as [|i rest IH]; intros points; simpl.
  - rewrite app_nil_r. reflexivity.
  - rewrite IH. unfold push_back. rewrite <- app_assoc. reflexivity.
Qed.

Lemma line_eq (points : Track) (x y length angle : double) (n : nat) :
  back points = Returns [x; y] ->
  line points length angle n
  = Returns (points ++ line_points x y length angle n).
Proof.
  intros Hb. unfold line. rewrite Hb. simpl.
  apply (for_each_push
           (fun i => [ x + INR i / INR n * (length * sin angle);
                       y + INR i / INR n * (length * cos angle) ])).
Qed.

Lemma spiral_eq (points : Track) (x y r0 a0 r1 a1 : double) (n : nat) :
  back points = Returns [x; y] ->
  spiral points r0 a0 r1 a1 n
  = Returns (points ++ spiral_points x y r0 a0 r1 a1 n).
Proof.
  intros Hb. unfold spiral. rewrite Hb. simpl.
  apply (for_each_push
           (fun i =>
              [ x - r0 * sin a0
                  + (r0 + INR i / INR n * (r1 - r0))
                    * sin (a0 + INR i / INR n * (a1 - a0));
                y - r0 * cos a0
                  + (r0 + INR i / INR n * (r1 - r0))
                    * cos (a0 + INR i / INR n * (a1 - a0)) ])).
Qed.

Lemma Forall_planar_map (f : nat -> list double) (indices : list nat) :
  (forall i, PlanarPoint (f i)) -> Forall PlanarPoint (map f indices).
Proof.
  intros Hf. apply Forall_forall. intros p Hin.
  apply in_map_iff in Hin. destruct Hin as [i [<- _]]. apply Hf.
Qed.

Lemma line_extends (points : Track) (length angle : double) (n : nat) :
  nonempty_track points -> extends n points (line points length angle n).
Proof.
  intros Ht. destruct (back_nonempty_track points Ht) as [x [y Hb]].
  exists (line_points x y length angle n). split; [|split].
  - apply line_eq, Hb.
  - unfold line_points. rewrite length_map, length_seq. reflexivity.
  - apply Forall_planar_map. intros i. reflexivity.
Qed.

Lemma spiral_extends (points : Track) (r0 a0 r1 a1 : double) (n : nat) :
  nonempty_track points -> extends n points (spiral points r0 a0 r1 a1 n).
Proof.
  intros Ht. destruct (back_nonempty_track points Ht) as [x [y Hb]].
  exists (spiral_points x y r0 a0 r1 a1 n). split; [|split].
  - apply spiral_eq, Hb.
  - unfold spiral_points. rewrite length_map, length_seq. reflexivity.
  - apply Forall_planar_map. intros i. reflexivity.
Qed.

Lemma sector_extends (points : Track) (r a0 a1 : double) (n : nat) :
  nonempty_track points -> extends n points (sector points r a0 a1 n).
Proof. apply spiral_extends. Qed.

Lemma circle_extends (points : Track) (r a : double) (n : nat) :
  nonempty_track points -> extends n points (circle points r a n).
Proof. apply spiral_extends. Qed.

(** Sequencing two extensions. *)
Lemma extends_bind (n m : nat) (points : Track) (r : outcome Track)
    (k : Track -> outcome Track) :
  nonempty_track points ->
  extends n points r ->
  (forall points', nonempty_track points' -> extends m points' (k points')) ->
  extends (n + m) points (bind r k).
Proof.
  intros Ht [ext1 [-> [Hl1 Hp1]]] Hk. simpl.
  destruct (Hk (points ++ ext1) (nonempty_track_app _ _ Ht Hp1))
    as [ext2 [-> [Hl2 Hp2]]].
  exists (ext1 ++ ext2). split; [|split].
  - rewrite app_assoc. reflexivity.
  - rewrite length_app. lia.
  - apply Forall_app. split; assumption.
Qed.

Lemma extends_prefix (n : nat) (points : Track) (r : outcome Track) :
  extends n points r ->
  exists points', r = Returns points' /\ is_prefix points points'
                  /\ List.length points' = (List.length points + n)%nat.
Proof.
  intros [ext [-> [Hl _]]]. exists (points ++ ext). split; [reflexivity|].
  split; [exists ext; reflexivity | rewrite length_app; lia].
Qed.

(** A loop whose every round extends the track held in its state by [m]
    points extends it by [m] points per index. *)
Lemma for_each_extends {S : Type} (proj : S -> Track) (m : nat)
    (body : nat -> S -> outcome S) :
  (forall i s, nonempty_track (proj s) ->
     exists s', body i s = Returns s' /\ extends m (proj s) (Returns (proj s'))) ->
  forall indices s, nonempty_track (proj s) ->
    exists s', for_each indices body s = Returns s'
      /\ extends (List.length indices * m) (proj s) (Returns (proj s')).
Proof.
  intros Hbody. induction indices as [|i rest IH]; intros s Ht; simpl.
  - exists s. split; [reflexivity|]. exists []. rewrite app_nil_r.
    repeat split. constructor.
  - destruct (Hbody i s Ht) as [s1 [-> [ext1 [E1 [L1 P1]]]]]. simpl.
    injection E1 as E1.
    assert (Ht1 : nonempty_track (proj s1)).
    { rewrite E1. apply nonempty_track_app; assumption. }
    destruct (IH s1 Ht1) as [s2 [-> [ext2 [E2 [L2 P2]]]]].
    injection E2 as E2.
    exists s2. split; [reflexivity|]. exists (ext1 ++ ext2). split; [|split].
    + rewrite E2, E1, app_assoc. reflexivity.
    + rewrite length_app. lia.
    + apply Forall_app. split; assumption.
Qed.

Lemma rectangle_extends (points : Track) (w h a : double) (n : nat) :
  nonempty_track points -> extends (4 * n) points (rectangle points w h a n).
Proof.
  intros Ht. unfold rectangle.
  match goal with
  | |- context [@for_each ?S _ ?b ?s0] =>
      destruct (@for_each_extends S (fun st => fst (fst st)) n b)
        with (indices := seq 0 4) (s := s0)
        as [st [-> Hext]]
  end.
  - intros i [[pts len] ang] Hp. simpl in Hp |- *.
    destruct (line_extends pts len ang n Hp) as [ext [-> [L P]]]. simpl.
    eexists. split; [reflexivity|]. exists ext. repeat split; assumption.
  - exact Ht.
  - simpl in Hext |- *. exact Hext.
Qed.

Lemma square_extends (points : Track) (l a : double) (n : nat) :
  nonempty_track points -> extends (4 * n) points (square points l a n).
Proof. apply rectangle_extends. Qed.

Lemma squiggle_extends (points : Track) (l r a rot : double) (k n : nat) :
  nonempty_track points ->
  extends (n + (k - 1) * (n + n)) points (squiggle points l r a rot k n).
Proof.
  intros Ht. unfold squiggle.
  apply extends_bind; [exact Ht | apply line_extends, Ht |].
  intros pts Hp. cbv beta zeta.
  match goal with
  | |- context [@for_each ?S _ ?b ?s0] =>
      destruct (@for_each_extends S (fun st => fst (fst (fst st))) (n + n) b)
        with (indices := seq 1 (k - 1)) (s := s0)
        as [st [-> Hext]]
  end.
  - intros i [[[pts1 ang] nxt] ira] Hp1. simpl in Hp1 |- *.
    assert (H : extends (n + n) pts1
                  (points0 <- sector pts1 r (ang + ira) (nxt + ira) n ;;
                   line points0 l nxt n)).
    { apply extends_bind; [exact Hp1 | apply sector_extends, Hp1 |].
      intros; apply line_extends; assumption. }
    destruct H as [ext [E [L P]]].
    destruct (sector pts1 r (ang + ira) (nxt + ira) n) as [p1| |];
      simpl in E |- *; try discriminate.
    rewrite E. simpl. eexists. split; [reflexivity|].
    exists ext. repeat split; assumption.
  - exact Hp.
  - rewrite length_seq in Hext. simpl. exact Hext.
Qed.

Lemma letterPi_extends (points : Track) (v h r a : double) (n : nat) :
  nonempty_track points -> extends (7 * n) points (letterPi points v h r a n).
Proof.
  intros Ht. unfold letterPi.
  replace (7 * n)%nat with (n + (n + (n + (n + (n + (n + n))))))%nat by lia.
  repeat (apply extends_bind;
          [ assumption
          | first [apply sector_extends | apply line_extends]; assumption
          | clear dependent points; intros points Ht ]).
  apply sector_extends, Ht.
Qed.

Create HintDb track.

#[local] Hint Resolve line_extends spiral_extends sector_extends
  circle_extends rectangle_extends square_extends squiggle_extends
  letterPi_extends : track.

Lemma call_extends (g : primitive) (points : Track) :
  nonempty_track points -> extends (pushed g) points (call g points).
Proof.
  intros Ht. destruct g; cbn [call pushed]; auto with track.
Qed.

(** ** Track generators *)

(** C4: on a non-empty track, [squiggle] with [k >= 1] lines of [n] points
    returns the track with exactly [k * n + (k - 1) * n] points pushed behind
    it. *)
Theorem squiggle_point_count (points : Track) (l r a rot : double)
    (k n : nat) :
  nonempty_track points ->
  (1 <= k)%nat ->
  exists ext,
    squiggle points l r a rot k n = Returns (points ++ ext)
    /\ List.length ext = (k * n + (k - 1) * n)%nat.
Proof.
  intros Ht Hk.
  destruct (squiggle_extends points l r a rot k n Ht) as [ext [E [L _]]].
  exists ext. split; [exact E|]. rewrite L.
  destruct k as [|k]; [lia|]. simpl. rewrite Nat.sub_0_r. lia.
Qed.

Lemma seed_track_ok : nonempty_track [[0; 0]].
Proof.
  split; [discriminate|]. constructor; [reflexivity | constructor].
Defined.

Lemma squiggle_point_count_reference :
  nonempty_track [[0; 0]] /\ (1 <= 8)%nat /\
  exists ext,
    squiggle [[0; 0]] 1000 1000 (0.5 * pi) pi 8 16 = Returns ([[0; 0]] ++ ext)
    /\ List.length ext = (8 * 16 + (8 - 1) * 16)%nat.
Proof.
  split; [exact seed_track_ok|]. split; [lia|].
  apply (squiggle_point_count [[0; 0]] 1000 1000 (0.5 * pi) pi 8 16).
  - exact seed_track_ok.
  - lia.
Defined.

(** C9: on a non-empty track every generator ([line], [rectangle], [square],
    [spiral], [sector], [circle], [squiggle], [letterPi]) returns, and the
    track before the call is a prefix of the track after it. *)
Theorem generators_only_append (g : primitive) (points : Track) :
  nonempty_track points ->
  exists points', call g points = Returns points' /\ is_prefix points points'.
Proof.
  intros Ht.
  destruct (extends_prefix _ _ _ (call_extends g points Ht))
    as [points' [E [P _]]].
  exists points'. split; assumption.
Qed.

Lemma generators_only_append_letterPi :
  nonempty_track [[0; 0]] /\
  exists points',
    call (LetterPi 50 40 10 (0.3 * pi) 16) [[0; 0]] = Returns points'
    /\ is_prefix [[0; 0]] points'.
Proof.
  split; [exact seed_track_ok|].
  apply (generators_only_append (LetterPi 50 40 10 (0.3 * pi) 16) [[0; 0]]).
  exact seed_track_ok.
Defined.

(** C10: on a non-empty track, [line], [spiral], [sector] and [circle] with
    [numberOfPoints = 0] return the track unchanged: the loop body, and with
    it the division by [numberOfPoints], is not run. *)
Theorem zero_points_is_noop (points : Track) :
  nonempty_track points ->
  (forall l a, line points l a 0 = Returns points)
  /\ (forall r0 a0 r1 a1, spiral points r0 a0 r1 a1 0 = Returns points)
  /\ (forall r a0 a1, sector points r a0 a1 0 = Returns points)
  /\ (forall r a, circle points r a 0 = Returns points).
Proof.
  intros Ht. destruct (back_nonempty_track points Ht) as [x [y Hb]].
  assert (Hs : forall r0 a0 r1 a1,
             spiral points r0 a0 r1 a1 0 = Returns points).
  { intros. rewrite (spiral_eq points x y) by exact Hb.
    unfold spiral_points. simpl. rewrite app_nil_r. reflexivity. }
  repeat split.
  - intros. rewrite (line_eq points x y) by exact Hb.
    unfold line_points. simpl. rewrite app_nil_r. reflexivity.
  - exact Hs.
  - intros. apply Hs.
  - intros. apply Hs.
Qed.

Lemma zero_points_is_noop_seed :
  nonempty_track [[0; 0]] /\
  (forall l a, line [[0; 0]] l a 0 = Returns [[0; 0]])
  /\ (forall r0 a0 r1 a1, spiral [[0; 0]] r0 a0 r1 a1 0 = Returns [[0; 0]])
  /\ (forall r a0 a1, sector [[0; 0]] r a0 a1 0 = Returns [[0; 0]])
  /\ (forall r a, circle [[0; 0]] r a 0 = Returns [[0; 0]]).
Proof.
  split; [exact seed_track_ok|].
  apply (zero_points_is_noop [[0; 0]]). exact seed_track_ok.
Defined.

(** ** Shape validation *)

Lemma failIfNotAGPSCoordinate_ok (c : GPSCoordinate) :
  List.length c = 3%nat -> failIfNotAGPSCoordinate c = Returns tt.
Proof.
  intros H. unfold failIfNotAGPSCoordinate. rewrite H. reflexivity.
Qed.

Lemma failIfNotAGPSCoordinate_throws (c : GPSCoordinate) :
  List.length c <> 3%nat ->
  failIfNotAGPSCoordinate c = Throws "GPS coordinate should have 3 values.".
Proof.
  intros H. unfold failIfNotAGPSCoordinate.
  destruct (Nat.eqb_spec 3 (List.length c)) as [E|E]; simpl.
  - congruence.
  - reflexivity.
Qed.

Lemma failIfNotAGPSCoordinate_cases (c : GPSCoordinate) :
  (raises (failIfNotAGPSCoordinate c) <-> List.length c <> 3%nat)
  /\ (failIfNotAGPSCoordinate c = Returns tt <-> List.length c = 3%nat).
Proof.
  destruct (Nat.eq_dec (List.length c) 3) as [E|E].
  - rewrite (failIfNotAGPSCoordinate_ok c E). split; split.
    + intros [what H]. discriminate.
    + intros H. contradiction.
    + intros _. exact E.
    + reflexivity.
  - rewrite (failIfNotAGPSCoordinate_throws c E). split; split.
    + intros _. exact E.
    + intros _. eexists. reflexivity.
    + discriminate.
    + intros H. contradiction.
Qed.

Lemma failIfNotAGPSPoint_pair (c0 c1 : GPSCoordinate) :
  failIfNotAGPSPoint [c0; c1]
  = (failIfNotAGPSCoordinate c0 ;;; failIfNotAGPSCoordinate c1).
Proof. reflexivity. Qed.

Lemma failIfNotAGPSPoint_cases (p : GPSPoint) :
  (raises (failIfNotAGPSPoint p) <->
     ~ exists c0 c1, p = [c0; c1]
                     /\ List.length c0 = 3%nat /\ List.length c1 = 3%nat)
  /\ (failIfNotAGPSPoint p = Returns tt <->
        exists c0 c1, p = [c0; c1]
                      /\ List.length c0 = 3%nat /\ List.length c1 = 3%nat).
Proof.
  destruct p as [|c0 [|c1 [|c2 p]]].
  1, 2, 4: split; split;
    [ intros _ [? [? [? _]]]; discriminate
    | intros _; eexists; reflexivity
    | discriminate
    | intros [? [? [? _]]]; discriminate ].
  rewrite failIfNotAGPSPoint_pair.
  destruct (Nat.eq_dec (List.length c0) 3) as [E0|E0].
  - rewrite (failIfNotAGPSCoordinate_ok c0 E0). simpl.
    destruct (failIfNotAGPSCoordinate_cases c1) as [[R1 R2] [O1 O2]].
    split; split.
    + intros H [? [? [Hp [_ H1]]]]. injection Hp as <- <-.
      apply (R1 H), H1.
    + intros H. apply R2. intros H1. apply H. exists c0, c1. auto.
    + intros H. exists c0, c1. auto.
    + intros [? [? [Hp [_ H1]]]]. injection Hp as <- <-. apply O2, H1.
  - rewrite (failIfNotAGPSCoordinate_throws c0 E0). simpl.
    split; split.
    + intros _ [? [? [Hp [H0 _]]]]. injection Hp as <- <-. contradiction.
    + intros _. eexists. reflexivity.
    + discriminate.
    + intros [? [? [Hp [H0 _]]]]. injection Hp as <- <-. contradiction.
Qed.

Lemma failIfNotAGPSPoint_raises (p : GPSPoint) :
  raises (failIfNotAGPSPoint p) <->
  (List.length p <> 2%nat
   \/ exists c0 c1, p = [c0; c1]
                    /\ (List.length c0 <> 3%nat \/ List.length c1 <> 3%nat)).
Proof.
  destruct (failIfNotAGPSPoint_cases p) as [[R1 R2] _]. split.
  - intros H. specialize (R1 H).
    destruct p as [|c0 [|c1 [|c2 p]]]; try (left; discriminate).
    right. exists c0, c1. split; [reflexivity|].
    destruct (Nat.eq_dec (List.length c0) 3) as [E0|E0]; [|left; exact E0].
    destruct (Nat.eq_dec (List.length c1) 3) as [E1|E1]; [|right; exact E1].
    exfalso. apply R1. exists c0, c1. auto.
  - intros H. apply R2. intros [c0 [c1 [-> [H0 H1]]]].
    destruct H as [H|[d0 [d1 [E [H|H]]]]].
    + apply H. reflexivity.
    + injection E as <- <-. contradiction.
    + injection E as <- <-. contradiction.
Qed.

(** C8: [failIfNotAGPSCoordinate c] throws exactly when [c] does not have 3
    components (so it throws on [[1; 2]]) and returns otherwise;
    [failIfNotAGPSPoint p] throws exactly when [p] does not have 2
    coordinates or one of its two coordinates does not have 3 components,
    and returns otherwise. *)
Theorem shape_validation :
  (forall c : GPSCoordinate,
     (raises (failIfNotAGPSCoordinate c) <-> List.length c <> 3%nat)
     /\ (failIfNotAGPSCoordinate c = Returns tt <-> List.length c = 3%nat))
  /\ failIfNotAGPSCoordinate [1; 2]
     = Throws "GPS coordinate should have 3 values."
  /\ (forall p : GPSPoint,
        (raises (failIfNotAGPSPoint p) <->
           (List.length p <> 2%nat
            \/ exists c0 c1,
                 p = [c0; c1]
                 /\ (List.length c0 <> 3%nat \/ List.length c1 <> 3%nat)))
        /\ (failIfNotAGPSPoint p = Returns tt <->
              exists c0 c1, p = [c0; c1]
                            /\ List.length c0 = 3%nat
                            /\ List.length c1 = 3%nat)).
Proof.
  split; [exact failIfNotAGPSCoordinate_cases|].
  split; [reflexivity|].
  intros p. split.
  - apply failIfNotAGPSPoint_raises.
  - apply failIfNotAGPSPoint_cases.
Qed.

(** ** Coordinate conversion *)

(** C3: [gpsPointFromRadians] returns the very point [gpsPointFromDegrees]
    returns on the same arguments: both decompose their arguments as they
    are, and no conversion from radians takes place. *)
Theorem gpsPointFromRadians_is_gpsPointFromDegrees (latitude longitude : double) :
  gpsPointFromRadians latitude longitude
  = gpsPointFromDegrees latitude longitude
  /\ gpsPointFromRadians latitude longitude
     = [gpsCoordinateFromDegrees latitude; gpsCoordinateFromDegrees longitude].
Proof. split; reflexivity. Qed.

Lemma floor_eq (z : Z) (x : double) : IZR z <= x < IZR z + 1 -> floor x = IZR z.
Proof. intros H. unfold floor. rewrite (Zfloor_eq z x H). reflexivity. Qed.

(** One radian is 57 whole degrees, so the point [gpsPointFromRadians 1 1] is
    not the point of one radian of latitude and longitude. *)
Lemma gpsPointFromRadians_not_radians :
  gpsPointFromRadians 1 1
  <> [gpsCoordinateFromRadians 1; gpsCoordinateFromRadians 1].
Proof.
  unfold gpsPointFromRadians, gpsCoordinateFromRadians,
    gpsCoordinateFromDegrees, degreesFromRadians.
  intros H. injection H as H _.
  rewrite (floor_eq 1 1) in H by lra.
  rewrite (floor_eq 57 (1 * 180 / pi)) in H.
  - lra.
  - unfold pi. split.
    + apply Rmult_le_reg_r with 3.1415926535798932384626433; [lra|].
      unfold Rdiv. rewrite Rmult_assoc, Rinv_l by lra. lra.
    + apply Rmult_lt_reg_r with 3.1415926535798932384626433; [lra|].
      unfold Rdiv. rewrite Rmult_assoc, Rinv_l by lra. lra.
Qed.

(** In exact arithmetic the triple [gpsCoordinateFromDegrees] returns is
    made of whole numbers, with minutes and seconds in [0, 60), and lies at
    most one second below its argument. *)
Lemma gpsCoordinateFromDegrees_whole (d : double) :
  exists deg min sec : Z,
    gpsCoordinateFromDegrees d = [IZR deg; IZR min; IZR sec]
    /\ (0 <= min < 60)%Z /\ (0 <= sec < 60)%Z
    /\ IZR deg + IZR min / 60 + IZR sec / 3600 <= d
       < IZR deg + IZR min / 60 + (IZR sec + 1) / 3600.
Proof.
  unfold gpsCoordinateFromDegrees, floor.
  set (deg := Zfloor d).
  set (min := Zfloor ((d - IZR deg) * 60)).
  set (sec := Zfloor ((d - IZR deg - IZR min / 60) * 3600)).
  exists deg, min, sec.
  pose proof (Zfloor_bound d) as Hd. fold deg in Hd.
  pose proof (Zfloor_bound ((d - IZR deg) * 60)) as Hm. fold min in Hm.
  pose proof (Zfloor_bound ((d - IZR deg - IZR min / 60) * 3600)) as Hs.
  fold sec in Hs.
  split; [reflexivity|].
  assert (Hmin : (0 <= min < 60)%Z).
  { split.
    - apply le_IZR. apply Rnot_lt_le. intros C.
      assert (IZR min + 1 <= 0) by (rewrite <- plus_IZR; apply IZR_le;
                                     apply lt_IZR in C; lia).
      lra.
    - apply lt_IZR. lra. }
  assert (Hsec : (0 <= sec < 60)%Z).
  { split.
    - apply le_IZR. apply Rnot_lt_le. intros C.
      assert (IZR sec + 1 <= 0) by (rewrite <- plus_IZR; apply IZR_le;
                                     apply lt_IZR in C; lia).
      lra.
    - apply lt_IZR. lra. }
  split; [exact Hmin|]. split; [exact Hsec|]. lra.
Qed.

Lemma truncated_dms_whole (deg min sec : Z) :
  (0 <= min < 60)%Z -> (0 <= sec < 60)%Z ->
  truncated_dms (IZR deg + IZR min / 60 + IZR sec / 3600)
  = [IZR deg; IZR min; IZR sec].
Proof.
  intros Hm Hs.
  assert (0 <= IZR min <= 59) by (split; apply IZR_le; lia).
  assert (0 <= IZR sec <= 59) by (split; apply IZR_le; lia).
  unfold truncated_dms.
  rewrite (floor_eq deg) by lra.
  rewrite (floor_eq min) by lra.
  rewrite (floor_eq sec) by lra.
  reflexivity.
Qed.

(** C7: the round trip does not return the floor decomposition of
    [d = D + M/60 + S/3600].  For the whole triple (41, 59, 4) that
    decomposition is (41, 59, 4) itself, and the doubles of the header come
    back one second short, as (41, 59, 3): the sum [41 + 59/60 + 4/3600]
    and the products that follow round, and [floor] drops what rounding
    took. *)
Theorem round_trip_loses_a_second :
  binary64.round_trip [41; 59; 4]%float = Returns [41; 59; 3]%float
  /\ truncated_dms (41 + 59 / 60 + 4 / 3600) = [41; 59; 4].
Proof.
  split.
  - vm_compute. reflexivity.
  - apply (truncated_dms_whole 41 59 4); lia.
Qed.

(** Other doubles the conversion takes below their seconds, or out of the
    range of minutes and seconds: 2.8125 is 2 degrees 48 minutes 45 seconds,
    and 1 degree 46 minutes comes back with -1 second. *)
Lemma gpsCoordinateFromDegrees_binary64_examples :
  binary64.gpsCoordinateFromDegrees 2.8125%float = [2; 48; 44]%float
  /\ binary64.round_trip [1; 46; 0]%float = Returns [1; 46; -1]%float.
Proof. split; vm_compute; reflexivity. Qed.

(** ** Numbers *)

Lemma pi_pos : 0 < pi.
Proof. unfold pi. lra. Qed.

(** The constant [pi] of the library is below the number [PI]: its eleventh
    decimal is 7 where that of [PI] is 8. *)
Lemma pi_lt_PI : pi < PI.
Proof.
  pose proof (PI_2_3_7_ineq 5) as [H _].
  unfold pi.
  cbn [sum_f_R0 Nat.mul Nat.add] in H.
  unfold tg_alt, PI_2_3_7_tg, Ratan_seq in H.
  cbn [Nat.mul Nat.add] in H.
  repeat rewrite INR_IZR_INZ in H.
  cbn [Z.of_nat Pos.of_succ_nat Pos.succ] in H.
  cbn [pow] in H.
  lra.
Qed.

Lemma atan_pos (x : R) : 0 < x -> 0 < atan x.
Proof. intros H. rewrite <- atan_0. apply atan_increasing, H. Qed.

Lemma atan_neg (x : R) : x < 0 -> atan x < 0.
Proof. intros H. rewrite <- atan_0. apply atan_increasing, H. Qed.

Lemma atan2_0_pos (x : double) : 0 < x -> atan2 0 x = 0.
Proof.
  intros H. unfold atan2. destruct (Rlt_dec 0 x) as [_|C]; [|contradiction].
  unfold Rdiv. rewrite Rmult_0_l. apply atan_0.
Qed.

Lemma atan2_pos (y x : double) : 0 < y -> 0 <= x -> 0 < atan2 y x.
Proof.
  intros Hy Hx. unfold atan2.
  destruct (Rlt_dec 0 x) as [P|N].
  - apply atan_pos. apply Rdiv_lt_0_compat; assumption.
  - destruct (Rlt_dec x 0) as [C|_]; [lra|].
    destruct (Rlt_dec 0 y) as [_|C]; [|contradiction].
    pose proof PI_RGT_0. lra.
Qed.

Lemma atan2_bound (y x : double) : - PI < atan2 y x <= PI.
Proof.
  pose proof PI_RGT_0 as HPI. unfold atan2.
  destruct (Rlt_dec 0 x) as [P|N].
  - pose proof (atan_bound (y / x)). lra.
  - destruct (Rlt_dec x 0) as [Q|_].
    + destruct (Rle_dec 0 y) as [Hy|Hy].
      * pose proof (atan_bound (y / x)) as B.
        assert (y / x <= 0).
        { pose proof (Rinv_lt_0_compat x Q). unfold Rdiv. nra. }
        assert (atan (y / x) <= 0).
        { destruct (Req_dec (y / x) 0) as [E|E].
          - rewrite E, atan_0. lra.
          - apply Rlt_le, atan_neg. lra. }
        lra.
      * pose proof (atan_bound (y / x)) as B.
        assert (0 < y / x).
        { replace (y / x) with ((- y) / (- x)) by (field; lra).
          apply Rdiv_lt_0_compat; lra. }
        pose proof (atan_pos _ H). lra.
    + destruct (Rlt_dec 0 y); [lra|]. destruct (Rlt_dec y 0); lra.
Qed.

Lemma trunc_nonneg (x : double) :
  0 <= x -> IZR (trunc x) <= x < IZR (trunc x) + 1.
Proof.
  intros H. unfold trunc. destruct (Rle_dec 0 x); [|contradiction].
  apply Zfloor_bound.
Qed.

Lemma trunc_neg (x : double) :
  x < 0 -> IZR (trunc x) - 1 < x <= IZR (trunc x).
Proof.
  intros H. unfold trunc. destruct (Rle_dec 0 x); [lra|].
  apply Zceil_bound.
Qed.

(** [fmod] of a non-negative number by a positive one. *)
Lemma fmod_nonneg (x y : double) : 0 <= x -> 0 < y -> 0 <= fmod x y < y.
Proof.
  intros Hx Hy. unfold fmod.
  assert (Hq : 0 <= x / y).
  { unfold Rdiv. apply Rmult_le_pos; [exact Hx|].
    apply Rlt_le, Rinv_0_lt_compat, Hy. }
  pose proof (trunc_nonneg (x / y) Hq) as [L U].
  assert (E : x = x / y * y) by (field; lra).
  split.
  - apply Rmult_le_compat_r with (r := y) in L; lra.
  - apply Rmult_lt_compat_r with (r := y) in U; lra.
Qed.

(** [fmod] of a negative number keeps the sign. *)
Lemma fmod_neg (x y : double) : x < 0 -> 0 < y -> - y < fmod x y <= 0.
Proof.
  intros Hx Hy. unfold fmod.
  assert (Hq : x / y < 0).
  { unfold Rdiv. apply Rmult_neg_pos; [exact Hx|].
    apply Rinv_0_lt_compat, Hy. }
  pose proof (trunc_neg (x / y) Hq) as [L U].
  assert (E : x = x / y * y) by (field; lra).
  split.
  - apply Rmult_lt_compat_r with (r := y) in L; lra.
  - apply Rmult_le_compat_r with (r := y) in U; lra.
Qed.

Lemma fmod_exact (k : Z) (x y : double) :
  0 < y -> 0 <= x -> IZR k * y <= x < (IZR k + 1) * y ->
  fmod x y = x - IZR k * y.
Proof.
  intros Hy Hx [L U]. unfold fmod, trunc.
  assert (Hq : 0 <= x / y).
  { unfold Rdiv. apply Rmult_le_pos; [exact Hx|].
    apply Rlt_le, Rinv_0_lt_compat, Hy. }
  destruct (Rle_dec 0 (x / y)); [|contradiction].
  rewrite (Zfloor_eq k); [reflexivity|].
  split.
  - apply Rmult_le_reg_r with y; [exact Hy|].
    replace (x / y * y) with x by (field; lra). exact L.
  - apply Rmult_lt_reg_r with y; [exact Hy|].
    replace (x / y * y) with x by (field; lra). exact U.
Qed.

Lemma fmod_exact_neg (k : Z) (x y : double) :
  0 < y -> x < 0 -> (IZR k - 1) * y < x <= IZR k * y ->
  fmod x y = x - IZR k * y.
Proof.
  intros Hy Hx [L U]. unfold fmod, trunc.
  assert (Hq : x / y < 0).
  { unfold Rdiv. apply Rmult_neg_pos; [exact Hx|].
    apply Rinv_0_lt_compat, Hy. }
  destruct (Rle_dec 0 (x / y)); [lra|].
  rewrite (Zceil_eq k); [reflexivity|].
  split.
  - apply Rmult_lt_reg_r with y; [exact Hy|].
    replace (x / y * y) with x by (field; lra). exact L.
  - apply Rmult_le_reg_r with y; [exact Hy|].
    replace (x / y * y) with x by (field; lra). exact U.
Qed.

(** ** Distance *)

(** C6: [distance] from a point to itself is 0, and [distance] is symmetric
    in its two points, with either value of the radius flag. *)
Theorem distance_zero_and_symmetric :
  (forall latitude longitude b,
     distance latitude longitude latitude longitude b = 0)
  /\ (forall latitude1 longitude1 latitude2 longitude2 b,
        distance latitude1 longitude1 latitude2 longitude2 b
        = distance latitude2 longitude2 latitude1 longitude1 b).
Proof.
  split.
  - intros latitude longitude b. unfold distance. cbv zeta.
    rewrite !Rminus_diag, Rmult_0_r, sin_0.
    replace (0 ^ 2 + cos (radiansFromDegrees latitude)
                     * cos (radiansFromDegrees latitude) * 0 ^ 2)
      with 0 by ring.
    rewrite sqrt_0, Rminus_0_r, sqrt_1, atan2_0_pos by lra.
    ring.
  - intros latitude1 longitude1 latitude2 longitude2 b.
    unfold distance. cbv zeta.
    replace (0.5 * (radiansFromDegrees latitude1 - radiansFromDegrees latitude2))
      with (- (0.5 * (radiansFromDegrees latitude2
                      - radiansFromDegrees latitude1))) by ring.
    replace (0.5 * (radiansFromDegrees longitude1
                    - radiansFromDegrees longitude2))
      with (- (0.5 * (radiansFromDegrees longitude2
                      - radiansFromDegrees longitude1))) by ring.
    rewrite !sin_neg.
    replace (latitude2 + latitude1) with (latitude1 + latitude2) by ring.
    set (s1 := sin (0.5 * (radiansFromDegrees latitude2
                           - radiansFromDegrees latitude1))).
    set (s2 := sin (0.5 * (radiansFromDegrees longitude2
                           - radiansFromDegrees longitude1))).
    replace ((- s1) ^ 2 + cos (radiansFromDegrees latitude2)
                          * cos (radiansFromDegrees latitude1) * (- s2) ^ 2)
      with (s1 ^ 2 + cos (radiansFromDegrees latitude1)
                     * cos (radiansFromDegrees latitude2) * s2 ^ 2) by ring.
    reflexivity.
Qed.

Lemma calculateEarthRadius_equator : calculateEarthRadius 0 = semiMajorEarthAxis.
Proof.
  unfold calculateEarthRadius, radiansFromDegrees. cbv zeta.
  replace (0 * pi / 180) with 0 by (unfold Rdiv; ring).
  rewrite sin_0, cos_0.
  replace ((semiMajorEarthAxis ^ 2 * (semiMajorEarthAxis * 1) ^ 2
            + semiMinorEarthAxis ^ 2 * (semiMinorEarthAxis * 0) ^ 2)
           / ((semiMajorEarthAxis * 1) ^ 2 + (semiMinorEarthAxis * 0) ^ 2))
    with (semiMajorEarthAxis ^ 2)
    by (unfold semiMajorEarthAxis, semiMinorEarthAxis; field; lra).
  replace (semiMajorEarthAxis ^ 2) with (Rsqr semiMajorEarthAxis)
    by (unfold Rsqr; ring).
  apply sqrt_Rsqr. unfold semiMajorEarthAxis. lra.
Qed.

(** The [distance] overload on GPS points never looks at its flag. *)
Lemma distance_GPSPoint_ignores_flag (point1 point2 : GPSPoint) (b : bool) :
  distance_GPSPoint point1 point2 b = distance_GPSPoint point1 point2 false.
Proof. reflexivity. Qed.

(** On valid points the overload is the degree-based [distance] with the
    flag [false]. *)
Lemma distance_GPSPoint_valid (D1 M1 S1 D2 M2 S2 D3 M3 S3 D4 M4 S4 : double)
    (b : bool) :
  distance_GPSPoint [[D1; M1; S1]; [D2; M2; S2]] [[D3; M3; S3]; [D4; M4; S4]] b
  = Returns (distance (D1 + M1 / 60 + S1 / (60 * 60))
               (D2 + M2 / 60 + S2 / (60 * 60))
               (D3 + M3 / 60 + S3 / (60 * 60))
               (D4 + M4 / 60 + S4 / (60 * 60)) false).
Proof. reflexivity. Qed.

(** The Haversine angle from (0, 0) to (0, 90) is positive. *)
Lemma quarter_turn_angle_pos :
  let a := sin (0.5 * (radiansFromDegrees 0 - radiansFromDegrees 0)) ^ 2
           + cos (radiansFromDegrees 0) * cos (radiansFromDegrees 0)
             * sin (0.5 * (radiansFromDegrees 90 - radiansFromDegrees 0)) ^ 2 in
  0 < 2 * atan2 (sqrt a) (sqrt (1 - a)).
Proof.
  intros a.
  assert (Ha : 0 < a).
  { unfold a, radiansFromDegrees.
    replace (0 * pi / 180) with 0 by (unfold Rdiv; ring).
    rewrite Rminus_diag, Rmult_0_r, sin_0, cos_0, Rminus_0_r.
    assert (0 < sin (0.5 * (90 * pi / 180))).
    { apply sin_gt_0.
      - pose proof pi_pos. lra.
      - pose proof pi_lt_PI. pose proof pi_pos. lra. }
    nra. }
  assert (0 < atan2 (sqrt a) (sqrt (1 - a))).
  { apply atan2_pos; [apply sqrt_lt_R0, Ha | apply sqrt_pos]. }
  lra.
Qed.

(** C1: the overload on GPS points drops the flag.  Between the valid points
    (0, 0) and (0, 90 degrees) with the flag [true] it returns the distance on
    the mean radius, which is not the degree-based [distance] of the same
    points with the flag [true]. *)
Theorem distance_GPSPoint_drops_flag :
  distance_GPSPoint [[0; 0; 0]; [0; 0; 0]] [[0; 0; 0]; [90; 0; 0]] true
  = Returns (distance 0 0 0 90 false)
  /\ distance 0 0 0 90 false <> distance 0 0 0 90 true.
Proof.
  split.
  - rewrite distance_GPSPoint_valid.
    replace (0 + 0 / 60 + 0 / (60 * 60)) with 0 by lra.
    replace (90 + 0 / 60 + 0 / (60 * 60)) with 90 by lra.
    reflexivity.
  - pose proof quarter_turn_angle_pos as H. cbv zeta in H.
    unfold distance. cbv zeta.
    replace (0.5 * (0 + 0)) with 0 by lra.
    rewrite calculateEarthRadius_equator.
    unfold earthRadius, semiMajorEarthAxis.
    intros E. nra.
Qed.

(** ** Destination *)

Lemma degrees_of_radians_plus (longitude t : double) :
  degreesFromRadians (radiansFromDegrees longitude + t)
  = longitude + t * 180 / pi.
Proof.
  unfold degreesFromRadians, radiansFromDegrees. pose proof pi_pos.
  field. lra.
Qed.

(** The longitude [destination] returns: the origin longitude moved by the
    angle [atan2 y x] turned into degrees, then normalised. *)
Lemma destination_longitude (latitude longitude d bearing : double) (b : bool) :
  exists t : double,
    - PI < t <= PI
    /\ longitude_of (destination latitude longitude d bearing b)
       = fmod (longitude + t * 180 / pi + 540) 360 - 180.
Proof.
  unfold destination, longitude_of. cbv zeta. cbn [nth].
  match goal with
  | |- context [atan2 ?y ?x] => exists (atan2 y x); split;
                                [apply atan2_bound|]
  end.
  rewrite degrees_of_radians_plus. reflexivity.
Qed.

(** Standing still on the equator, heading north. *)
Lemma destination_longitude_still (longitude : double) :
  longitude_of (destination 0 longitude 0 0 false)
  = fmod (longitude + 540) 360 - 180.
Proof.
  unfold destination, longitude_of. cbv zeta. cbn [nth].
  rewrite degrees_of_radians_plus.
  replace (radiansFromDegrees 0) with 0
    by (unfold radiansFromDegrees, Rdiv; ring).
  replace (0 / earthRadius) with 0 by (unfold Rdiv; ring).
  rewrite sin_0, cos_0.
  replace (0 * 0 * 1) with 0 by ring.
  replace (1 - 0 * (0 * 1 + 1 * 0 * 1)) with 1 by ring.
  rewrite atan2_0_pos by lra.
  replace (longitude + 0 * 180 / pi) with longitude
    by (unfold Rdiv; ring).
  reflexivity.
Qed.

(** C2, as stated, fails: from longitude 180 the longitude returned is -180,
    outside (-180, 180], and from longitude -1000 it is -280. *)
Lemma destination_longitude_outside :
  ~ (-180 < longitude_of (destination 0 180 0 0 false) <= 180)
  /\ ~ (-180 < longitude_of (destination 0 (-1000) 0 0 false) <= 180).
Proof.
  rewrite !destination_longitude_still. split.
  - rewrite (fmod_exact 2) by lra. lra.
  - rewrite (fmod_exact_neg (-1)) by lra. lra.
Qed.

(** C2, amended: from an origin longitude of at least -180 the longitude
    returned lies in [-180, 180): it can be -180 and is never 180. *)
Theorem destination_longitude_range
    (latitude longitude d bearing : double) (b : bool) :
  -180 <= longitude ->
  -180 <= longitude_of (destination latitude longitude d bearing b) < 180.
Proof.
  intros Hlon.
  destruct (destination_longitude latitude longitude d bearing b)
    as [t [[Ht _] ->]].
  assert (H : 0 <= longitude + t * 180 / pi + 540).
  { pose proof PI_4. pose proof pi_pos as Hp.
    assert (- 240 < t * 180 / pi).
    { apply Rmult_lt_reg_r with pi; [exact Hp|].
      replace (t * 180 / pi * pi) with (t * 180) by (field; lra).
      unfold pi. lra. }
    lra. }
  pose proof (fmod_nonneg _ 360 H ltac:(lra)). lra.
Qed.

Lemma destination_longitude_range_reaches_minus_180 :
  -180 <= 180
  /\ -180 <= longitude_of (destination 0 180 0 0 false) < 180.
Proof.
  split; [lra|].
  apply (destination_longitude_range 0 180 0 0 false). lra.
Defined.

(** The longitude returned is below 180 whatever the origin. *)
Lemma destination_longitude_below_180
    (latitude longitude d bearing : double) (b : bool) :
  longitude_of (destination latitude longitude d bearing b) < 180.
Proof.
  destruct (destination_longitude latitude longitude d bearing b)
    as [t [_ ->]].
  destruct (Rle_dec 0 (longitude + t * 180 / pi + 540)) as [H|H].
  - pose proof (fmod_nonneg _ 360 H ltac:(lra)). lra.
  - pose proof (fmod_neg (longitude + t * 180 / pi + 540) 360
                  ltac:(lra) ltac:(lra)). lra.
Qed.

Lemma sqrt_sum_sqr_scale (x y : R) :
  0 < x -> sqrt (x ^ 2 + y ^ 2) = x * sqrt (1 + (y / x)²).
Proof.
  intros Hx.
  replace (x ^ 2 + y ^ 2) with (x² * (1 + (y / x)²))
    by (unfold Rsqr; field; lra).
  rewrite sqrt_mult_alt by apply Rle_0_sqr.
  rewrite sqrt_Rsqr by lra. reflexivity.
Qed.

Lemma sqrt_one_plus_sqr_pos (z : R) : 0 < sqrt (1 + z²).
Proof. apply sqrt_lt_R0. pose proof (Rle_0_sqr z). lra. Qed.

(** [atan2 y x] is the angle of the vector [(x, y)]. *)
Lemma cos_atan2 (y x : R) : cos (atan2 y x) * sqrt (x ^ 2 + y ^ 2) = x.
Proof.
  unfold atan2.
  destruct (Rlt_dec 0 x) as [P|N].
  - rewrite cos_atan, sqrt_sum_sqr_scale by exact P.
    pose proof (sqrt_one_plus_sqr_pos (y / x)). field. lra.
  - destruct (Rlt_dec x 0) as [Q|Z].
    + assert (E : sqrt (x ^ 2 + y ^ 2) = - x * sqrt (1 + (y / x)²)).
      { replace (x ^ 2 + y ^ 2) with ((- x) ^ 2 + (- y) ^ 2) by ring.
        rewrite sqrt_sum_sqr_scale by lra.
        replace (- y / - x) with (y / x) by (field; lra). reflexivity. }
      pose proof (sqrt_one_plus_sqr_pos (y / x)).
      rewrite E.
      destruct (Rle_dec 0 y).
      * rewrite neg_cos, cos_atan. field. lra.
      * unfold Rminus. rewrite cos_plus, cos_neg, sin_neg, cos_PI, sin_PI, cos_atan.
        field. lra.
    + assert (x = 0) by lra. subst x.
      destruct (Rlt_dec 0 y); [rewrite cos_PI2; ring|].
      destruct (Rlt_dec y 0); [rewrite cos_neg, cos_PI2; ring|].
      assert (y = 0) by lra. subst y.
      replace (0 ^ 2 + 0 ^ 2) with 0 by ring. rewrite sqrt_0. ring.
Qed.

Lemma atan2_sin_cos (u : R) : 0 <= u <= PI / 2 -> atan2 (sin u) (cos u) = u.
Proof.
  intros [L U]. unfold atan2.
  destruct (Rlt_dec 0 (cos u)) as [P|N].
  - assert (u < PI / 2).
    { destruct U as [U|U]; [exact U|]. rewrite U, cos_PI2 in P. lra. }
    change (sin u / cos u) with (tan u). apply atan_tan. pose proof PI_RGT_0. lra.
  - pose proof (cos_ge_0 u ltac:(pose proof PI_RGT_0; lra) U) as C.
    destruct (Rlt_dec (cos u) 0); [lra|].
    assert (u = PI / 2).
    { destruct U as [U|U]; [|exact U].
      pose proof (cos_gt_0 u ltac:(pose proof PI_RGT_0; lra) U). lra. }
    subst u. rewrite sin_PI2. destruct (Rlt_dec 0 1); [reflexivity|lra].
Qed.

Lemma sin_half_sqr (u : R) : sin (0.5 * u) ^ 2 = (1 - cos u) / 2.
Proof.
  replace u with (2 * (0.5 * u)) at 2 by lra.
  rewrite cos_2a_sin. field.
Qed.
(** The algebra behind the direct problem on the sphere: [s4] is the sine of
    the destination latitude and [(x, y)] has length [cos1 * cos2]. *)
Lemma sphere_algebra (s1 c1 sd cd st ct : R) :
  s1 * s1 + c1 * c1 = 1 -> sd * sd + cd * cd = 1 -> st * st + ct * ct = 1 ->
  let s4 := s1 * cd + c1 * sd * ct in
  let x := cd - s1 * s4 in
  let y := st * sd * c1 in
  1 - s4 * s4 = (c1 * cd - s1 * sd * ct) * (c1 * cd - s1 * sd * ct)
                + (st * sd) * (st * sd)
  /\ x * x + y * y = (c1 * c1) * (1 - s4 * s4).
Proof.
  intros H1 Hd Ht s4 x y.
  assert (E : 1 - s4 * s4 = (c1 * cd - s1 * sd * ct) * (c1 * cd - s1 * sd * ct)
                + (st * sd) * (st * sd)).
  { unfold s4.
    replace 1 with
      ((s1 * s1 + c1 * c1) * (cd * cd)
       + (s1 * s1 + c1 * c1) * (sd * sd) * (ct * ct)
       + (sd * sd) * (st * st)) at 1.
    - ring.
    - rewrite H1. replace (1 * (cd * cd) + 1 * (sd * sd) * (ct * ct) + sd * sd * (st * st))
        with (cd * cd + sd * sd * (st * st + ct * ct)) by ring.
      rewrite Ht. lra. }
  split; [exact E|].
  rewrite E. unfold x, y, s4.
  replace (cd - s1 * (s1 * cd + c1 * sd * ct))
    with (cd * (s1 * s1 + c1 * c1) - s1 * (s1 * cd + c1 * sd * ct))
    by (rewrite H1; ring).
  ring.
Qed.

Lemma destination_normalises (latitude longitude d bearing : double) (b : bool) :
  latitude_of (destination latitude longitude d bearing b)
  = latitude_of (destination_unnormalised latitude longitude d bearing b)
  /\ longitude_of (destination latitude longitude d bearing b)
     = fmod (longitude_of
               (destination_unnormalised latitude longitude d bearing b)
             + 540) 360 - 180.
Proof. split; reflexivity. Qed.

Lemma radians_of_degrees_of_radians (r : double) :
  radiansFromDegrees (degreesFromRadians r) = r.
Proof.
  unfold radiansFromDegrees, degreesFromRadians. pose proof pi_pos.
  field. lra.
Qed.

Lemma sin_cos_sqr (u : R) : sin u * sin u + cos u * cos u = 1.
Proof. apply (sin2_cos2 u). Qed.

Lemma sqr_le_1 (s : R) : 0 <= 1 - s * s -> -1 <= s <= 1.
Proof. intros H. split; nra. Qed.

(** X26: where the longitude is not wrapped, [distance] undoes [destination]: from
    a latitude in [-90, 90] and over at most half a turn of the sphere, the
    distance to the destination is the distance travelled. *)
Theorem distance_of_destination (latitude longitude d bearing : double) :
  -90 <= latitude <= 90 ->
  0 <= d <= PI * earthRadius ->
  -180 <= longitude_of
            (destination_unnormalised latitude longitude d bearing false)
       < 180 ->
  distance latitude longitude
    (latitude_of (destination latitude longitude d bearing false))
    (longitude_of (destination latitude longitude d bearing false)) false
  = d.
Proof.
  intros Hlat Hd Hwrap.
  destruct (destination_normalises latitude longitude d bearing false)
    as [-> ->].
  remember (longitude_of
              (destination_unnormalised latitude longitude d bearing false))
    as raw eqn:Eraw.
  rewrite (fmod_exact 1) by (clear Eraw; lra).
  replace (raw + 540 - 1 * 360 - 180) with raw by ring.
  subst raw.
  clear Hwrap.
  unfold destination_unnormalised, latitude_of, longitude_of. cbv zeta.
  cbn [nth]. unfold distance. cbv zeta.
  rewrite !radians_of_degrees_of_radians.
  set (p1 := radiansFromDegrees latitude).
  set (th := radiansFromDegrees bearing).
  set (dl := d / earthRadius).
  set (s4 := sin p1 * cos dl + cos p1 * sin dl * cos th).
  set (y := sin th * sin dl * cos p1).
  set (x := cos dl - sin p1 * s4).
  replace (radiansFromDegrees longitude + atan2 y x - radiansFromDegrees longitude)
    with (atan2 y x) by ring.
  assert (Hp1 : - (PI / 2) < p1 < PI / 2).
  { unfold p1, radiansFromDegrees. pose proof pi_lt_PI. pose proof pi_pos.
    split; nra. }
  assert (Hc1 : 0 < cos p1) by (apply cos_gt_0; lra).
  assert (Hdl : 0 <= 0.5 * dl <= PI / 2).
  { unfold dl, earthRadius in *. split.
    - apply Rmult_le_pos; [lra|]. apply Rmult_le_pos; [lra|].
      apply Rlt_le, Rinv_0_lt_compat. lra.
    - apply Rmult_le_reg_r with 6371000; [lra|].
      replace (0.5 * (d / 6371000) * 6371000) with (0.5 * d) by (field; lra).
      lra. }
  destruct (sphere_algebra (sin p1) (cos p1) (sin dl) (cos dl) (sin th) (cos th)
              (sin_cos_sqr p1) (sin_cos_sqr dl) (sin_cos_sqr th))
    as [E1 E2].
  fold s4 in E1, E2. fold x in E2. fold y in E2.
  assert (Hs4 : -1 <= s4 <= 1).
  { apply sqr_le_1. rewrite E1.
    apply Rplus_le_le_0_compat; apply Rle_0_sqr. }
  assert (Hsin2 : sin (asin s4) = s4) by (apply sin_asin, Hs4).
  assert (Hcos2 : cos (asin s4) = sqrt (1 - s4 * s4)).
  { rewrite cos_asin by exact Hs4. reflexivity. }
  assert (Hnorm : sqrt (x ^ 2 + y ^ 2) = cos p1 * cos (asin s4)).
  { rewrite Hcos2.
    replace (x ^ 2 + y ^ 2) with ((cos p1)² * (1 - s4 * s4))
      by (unfold Rsqr; rewrite <- E2; ring).
    rewrite sqrt_mult_alt by apply Rle_0_sqr.
    rewrite sqrt_Rsqr by lra. reflexivity. }
  assert (Hx : cos p1 * cos (asin s4) * cos (atan2 y x) = x).
  { rewrite <- Hnorm. rewrite Rmult_comm. apply cos_atan2. }
  assert (Ha : sin (0.5 * (asin s4 - p1)) ^ 2
               + cos p1 * cos (asin s4) * sin (0.5 * atan2 y x) ^ 2
               = sin (0.5 * dl) ^ 2).
  { rewrite !sin_half_sqr, cos_minus, Hsin2.
    replace (cos p1 * cos (asin s4) * ((1 - cos (atan2 y x)) / 2))
      with ((cos p1 * cos (asin s4)
             - cos p1 * cos (asin s4) * cos (atan2 y x)) / 2) by field.
    rewrite Hx. unfold x. field. }
  rewrite Ha.
  assert (Hs : 0 <= sin (0.5 * dl)).
  { apply sin_ge_0; pose proof PI_RGT_0; lra. }
  assert (Hc : 0 <= cos (0.5 * dl)).
  { apply cos_ge_0; pose proof PI_RGT_0; lra. }
  replace (sin (0.5 * dl) ^ 2) with (Rsqr (sin (0.5 * dl))) at 1
    by (unfold Rsqr; ring).
  rewrite sqrt_Rsqr by exact Hs.
  replace (1 - sin (0.5 * dl) ^ 2) with (Rsqr (cos (0.5 * dl)))
    by (rewrite cos2; unfold Rsqr; ring).
  rewrite sqrt_Rsqr by exact Hc.
  rewrite atan2_sin_cos by exact Hdl.
  unfold dl, earthRadius. lra.
Qed.

Lemma sin_pi_pos : 0 < sin pi.
Proof.
  apply sin_gt_0; [exact pi_pos | exact pi_lt_PI].
Qed.

Lemma destination_latitude_still (longitude : double) :
  latitude_of (destination 0 longitude 0 0 false) = 0.
Proof.
  unfold destination, latitude_of. cbv zeta. cbn [nth].
  replace (radiansFromDegrees 0) with 0
    by (unfold radiansFromDegrees, Rdiv; ring).
  replace (0 / earthRadius) with 0 by (unfold Rdiv; ring).
  rewrite sin_0, cos_0.
  replace (0 * 1 + 1 * 0 * 1) with 0 by ring.
  rewrite asin_0. unfold degreesFromRadians, Rdiv. ring.
Qed.

(** C5: the round trip fails where the longitude is wrapped, because the
    turn of 360 degrees is [2 * pi] radians and [pi] is not [PI].  From
    (0, 180) the destination at distance 0 is (0, -180), and the distance
    from (0, 180) to it is positive, not 0. *)
Theorem distance_to_wrapped_destination :
  latitude_of (destination 0 180 0 0 false) = 0
  /\ longitude_of (destination 0 180 0 0 false) = -180
  /\ 0 < distance 0 180
           (latitude_of (destination 0 180 0 0 false))
           (longitude_of (destination 0 180 0 0 false)) false.
Proof.
  assert (Hlon : longitude_of (destination 0 180 0 0 false) = -180).
  { rewrite destination_longitude_still.
    rewrite (fmod_exact 2) by lra. lra. }
  rewrite destination_latitude_still, Hlon.
  split; [reflexivity|]. split; [reflexivity|].
  unfold distance. cbv zeta.
  set (a := sin (0.5 * (radiansFromDegrees 0 - radiansFromDegrees 0)) ^ 2
            + cos (radiansFromDegrees 0) * cos (radiansFromDegrees 0)
              * sin (0.5 * (radiansFromDegrees (-180)
                            - radiansFromDegrees 180)) ^ 2).
  assert (Ha : 0 < a).
  { unfold a, radiansFromDegrees.
    replace (0 * pi / 180) with 0 by (unfold Rdiv; ring).
    replace (0.5 * (-180 * pi / 180 - 180 * pi / 180)) with (- pi) by lra.
    rewrite Rminus_diag, Rmult_0_r, sin_0, cos_0, sin_neg.
    pose proof sin_pi_pos. nra. }
  assert (0 < atan2 (sqrt a) (sqrt (1 - a))).
  { apply atan2_pos; [apply sqrt_lt_R0, Ha | apply sqrt_pos]. }
  unfold earthRadius. nra.
Qed.

(** * Further properties of the header *)

(** ** Angles and coordinates *)

(** In exact arithmetic, degrees to radians and back, and radians to degrees
    and back, give the angle started from. *)
Lemma angle_round_trips (x : double) :
  degreesFromRadians (radiansFromDegrees x) = x
  /\ radiansFromDegrees (degreesFromRadians x) = x.
Proof.
  unfold radiansFromDegrees, degreesFromRadians. pose proof pi_pos.
  split; field; lra.
Qed.

(** X2: for a double [d] in the normal range, between [10 ^ -300] and
    [10 ^ 300] in absolute value, [radiansFromDegrees d] is strictly closer
    to 0 than the angle in radians [d * PI / 180]: the constant [pi] is
    below [PI] by more than any rounding. *)
Theorem radiansFromDegrees_short (d : double) :
  / 10 ^ 300 <= Rabs d <= 10 ^ 300 ->
  Rabs (radiansFromDegrees d) < Rabs (d * PI / 180).
Proof.
  intros [Hl _].
  pose proof pi_lt_PI as Hlt. pose proof pi_pos as Hpos.
  assert (Hd : 0 < Rabs d).
  { apply Rlt_le_trans with (/ 10 ^ 300); [|exact Hl].
    apply Rinv_0_lt_compat, pow_lt. lra. }
  unfold radiansFromDegrees.
  replace (d * pi / 180) with (d * (pi / 180)) by (unfold Rdiv; ring).
  replace (d * PI / 180) with (d * (PI / 180)) by (unfold Rdiv; ring).
  rewrite !Rabs_mult.
  rewrite (Rabs_pos_eq (pi / 180)) by lra.
  rewrite (Rabs_pos_eq (PI / 180)) by lra.
  apply Rmult_lt_compat_l; [exact Hd | lra].
Qed.

Lemma radiansFromDegrees_short_quarter :
  / 10 ^ 300 <= Rabs 90 <= 10 ^ 300
  /\ Rabs (radiansFromDegrees 90) < Rabs (90 * PI / 180).
Proof.
  assert (H : / 10 ^ 300 <= Rabs 90 <= 10 ^ 300).
  { rewrite (Rabs_pos_eq 90) by lra.
    assert (H1 : 1 <= 10 ^ 300) by (apply pow_R1_Rle; lra).
    assert (H2 : 90 <= 10 ^ 300).
    { apply Rle_trans with (10 ^ 2); [lra|].
      apply Rle_pow; [lra | lia]. }
    split; [|exact H2].
    apply Rle_trans with 1; [|lra].
    rewrite <- Rinv_1. apply Rinv_le_contravar; lra. }
  split; [exact H|].
  apply (radiansFromDegrees_short 90). exact H.
Defined.

Lemma In_whole_range (lo z : Z) (count : nat) :
  (lo <= z < lo + Z.of_nat count)%Z -> In z (whole_range lo count).
Proof.
  intros H. unfold whole_range. apply in_map_iff.
  exists (Z.to_nat (z - lo)). split; [lia|].
  apply in_seq. lia.
Qed.

(** X3: on the doubles, every whole triple of -180 to 180 degrees with
    minutes and seconds from 0 to 59 comes back from the round trip through
    decimal degrees with the count of seconds it stands for, or with one
    second less; by running the 1299600 triples. *)
Theorem whole_triples_come_back_or_one_short (D M S : Z) :
  (-180 <= D <= 180)%Z -> (0 <= M < 60)%Z -> (0 <= S < 60)%Z ->
  back_or_one_short (whole D) (whole M) (whole S) = true.
Proof.
  intros HD HM HS.
  assert (All :
    forallb (fun D =>
      forallb (fun M =>
        forallb (fun S => back_or_one_short (whole D) (whole M) (whole S))
                (whole_range 0 60))
              (whole_range 0 60))
            (whole_range (-180) 361) = true)
    by (vm_compute; reflexivity).
  rewrite forallb_forall in All.
  specialize (All D (In_whole_range (-180) D 361 ltac:(lia))).
  rewrite forallb_forall in All.
  specialize (All M (In_whole_range 0 M 60 ltac:(lia))).
  rewrite forallb_forall in All.
  exact (All S (In_whole_range 0 S 60 ltac:(lia))).
Qed.

Lemma whole_triples_come_back_or_one_short_reference :
  (-180 <= 41 <= 180)%Z /\ (0 <= 59 < 60)%Z /\ (0 <= 4 < 60)%Z
  /\ back_or_one_short (whole 41) (whole 59) (whole 4) = true.
Proof.
  split; [lia|]. split; [lia|]. split; [lia|].
  apply (whole_triples_come_back_or_one_short 41 59 4); lia.
Defined.

Lemma failIfNotAGPSPoint_from_degrees (latitude longitude : double) :
  failIfNotAGPSPoint (gpsPointFromDegrees latitude longitude) = Returns tt.
Proof. reflexivity. Qed.

(** X4: [destinationGPSPoint] always returns: its point is
    [gpsPointFromDegrees] of the pair of [destination], it passes
    [failIfNotAGPSPoint], and [degreesFromGPSPoint] and
    [radiansFromGPSPoint] return on it. *)
Theorem destinationGPSPoint_returns
    (latitude longitude d bearing : double) (b : bool) :
  exists point,
    destinationGPSPoint latitude longitude d bearing b = Returns point
    /\ point
       = gpsPointFromDegrees
           (latitude_of (destination latitude longitude d bearing b))
           (longitude_of (destination latitude longitude d bearing b))
    /\ failIfNotAGPSPoint point = Returns tt
    /\ (exists la lo, degreesFromGPSPoint point = Returns [la; lo])
    /\ (exists la lo, radiansFromGPSPoint point = Returns [la; lo]).
Proof.
  eexists. split; [reflexivity|]. split; [reflexivity|].
  split; [apply failIfNotAGPSPoint_from_degrees|].
  split; eexists; eexists; reflexivity.
Qed.

Lemma raises_throws {A : Type} (what : string) : raises (@Throws A what).
Proof. exists what. reflexivity. Qed.

Lemma not_raises_returns {A : Type} (a : A) : ~ raises (Returns a).
Proof. intros [what H]. discriminate. Qed.

(** The outcome of [failIfNotAGPSPoint], by the shape of the point. *)
Lemma failIfNotAGPSPoint_outcome (p : GPSPoint) :
  (exists D1 M1 S1 D2 M2 S2,
      p = [[D1; M1; S1]; [D2; M2; S2]] /\ failIfNotAGPSPoint p = Returns tt)
  \/ (exists what, failIfNotAGPSPoint p = Throws what).
Proof.
  destruct p as [|c0 [|c1 [|c2 p]]];
    try (right; eexists; reflexivity).
  destruct c0 as [|D1 [|M1 [|S1 [|T1 c0]]]];
    try (right; eexists; reflexivity).
  destruct c1 as [|D2 [|M2 [|S2 [|T2 c1]]]];
    try (right; eexists; reflexivity).
  left. exists D1, M1, S1, D2, M2, S2. split; reflexivity.
Qed.

(** X5: [degreesFromGPSPoint] throws exactly when [failIfNotAGPSPoint] does,
    with the same error, and never reads out of range; and
    [radiansFromGPSPoint] is [degreesFromGPSPoint] followed by
    [radiansFromDegrees] on each component, errors included. *)
Theorem gps_point_conversions (p : GPSPoint) :
  (forall what,
     degreesFromGPSPoint p = Throws what
     <-> failIfNotAGPSPoint p = Throws what)
  /\ degreesFromGPSPoint p <> Undefined
  /\ radiansFromGPSPoint p
     = (ds <- degreesFromGPSPoint p ;; Returns (map radiansFromDegrees ds)).
Proof.
  destruct (failIfNotAGPSPoint_outcome p)
    as [[D1 [M1 [S1 [D2 [M2 [S2 [-> E]]]]]]] | [what E]].
  - split; [|split].
    + intros what. split; intros H; discriminate.
    + discriminate.
    + reflexivity.
  - unfold degreesFromGPSPoint, radiansFromGPSPoint. rewrite E. simpl.
    split; [|split].
    + intros w. split; intros H; injection H as ->; reflexivity.
    + discriminate.
    + reflexivity.
Qed.

(** ** Earth radius *)

(** The radius of the ellipsoid lies between its two semi-axes. *)
Lemma ellipsoid_radius_bounds (a b c s : R) :
  0 < b <= a -> c * c + s * s = 1 ->
  b <= sqrt ((a ^ 2 * (a * c) ^ 2 + b ^ 2 * (b * s) ^ 2)
             / ((a * c) ^ 2 + (b * s) ^ 2)) <= a.
Proof.
  intros [Hb Hab] Hcs.
  set (A := (a * c) ^ 2). set (B := (b * s) ^ 2).
  assert (HA : 0 <= A) by (unfold A; nra).
  assert (HB : 0 <= B) by (unfold B; nra).
  assert (HAB : 0 < A + B).
  { destruct (Req_dec c 0) as [Hc|Hc].
    - assert (s * s = 1) by (rewrite Hc in Hcs; lra).
      assert (B = b * b) by (unfold B; nra). nra.
    - assert (0 < c * c) by nra.
      assert (0 < a * a) by nra.
      assert (A = (a * a) * (c * c)) by (unfold A; ring). nra. }
  clearbody A B.
  assert (Hsq : 0 <= a * a - b * b) by nra.
  pose proof (Rmult_le_pos _ _ Hsq HA) as HsA.
  pose proof (Rmult_le_pos _ _ Hsq HB) as HsB.
  assert (Hq : b ^ 2 <= (a ^ 2 * A + b ^ 2 * B) / (A + B) <= a ^ 2).
  { split.
    - apply Rmult_le_reg_r with (A + B); [exact HAB|].
      replace ((a ^ 2 * A + b ^ 2 * B) / (A + B) * (A + B))
        with (a ^ 2 * A + b ^ 2 * B) by (field; lra).
      lra.
    - apply Rmult_le_reg_r with (A + B); [exact HAB|].
      replace ((a ^ 2 * A + b ^ 2 * B) / (A + B) * (A + B))
        with (a ^ 2 * A + b ^ 2 * B) by (field; lra).
      lra. }
  destruct Hq as [L U].
  assert (Eb : sqrt (b ^ 2) = b).
  { replace (b ^ 2) with (Rsqr b) by (unfold Rsqr; ring).
    apply sqrt_Rsqr. lra. }
  assert (Ea : sqrt (a ^ 2) = a).
  { replace (a ^ 2) with (Rsqr a) by (unfold Rsqr; ring).
    apply sqrt_Rsqr. lra. }
  split.
  - rewrite <- Eb at 1. apply sqrt_le_1_alt, L.
  - apply Rle_trans with (sqrt (a ^ 2)); [apply sqrt_le_1_alt, U | lra].
Qed.

Lemma cos_sin_sqr (u : R) : cos u * cos u + sin u * sin u = 1.
Proof. pose proof (sin2_cos2 u) as H. unfold Rsqr in H. lra. Qed.

(** In exact arithmetic [calculateEarthRadius] lies between the semi-minor
    and the semi-major axis at every latitude, and it is the same north and
    south of the equator. *)
Lemma calculateEarthRadius_bounds (latitude : double) :
  semiMinorEarthAxis <= calculateEarthRadius latitude <= semiMajorEarthAxis
  /\ calculateEarthRadius (- latitude) = calculateEarthRadius latitude.
Proof.
  split.
  - unfold calculateEarthRadius. cbv zeta.
    apply ellipsoid_radius_bounds.
    + unfold semiMinorEarthAxis, semiMajorEarthAxis. lra.
    + apply cos_sin_sqr.
  - unfold calculateEarthRadius. cbv zeta.
    replace (radiansFromDegrees (- latitude))
      with (- radiansFromDegrees latitude)
      by (unfold radiansFromDegrees, Rdiv; ring).
    rewrite cos_neg, sin_neg. f_equal. f_equal; ring.
Qed.

(** X6: for a latitude from -90 to 90, [calculateEarthRadius] lies between
    6356752 and 6378138 metres, the semi-axes taken to the whole metre
    outwards, and it is the same north and south of the equator. *)
Theorem calculateEarthRadius_range (latitude : double) :
  -90 <= latitude <= 90 ->
  6356752 <= calculateEarthRadius latitude <= 6378138
  /\ calculateEarthRadius (- latitude) = calculateEarthRadius latitude.
Proof.
  intros _. destruct (calculateEarthRadius_bounds latitude) as [[L U] E].
  unfold semiMinorEarthAxis, semiMajorEarthAxis in *.
  split; [lra | exact E].
Qed.

Lemma calculateEarthRadius_range_reference :
  -90 <= 41 <= 90
  /\ 6356752 <= calculateEarthRadius 41 <= 6378138
  /\ calculateEarthRadius (- 41) = calculateEarthRadius 41.
Proof.
  split; [lra|]. apply (calculateEarthRadius_range 41). lra.
Defined.

(** X7: on a GPS point whose longitude has 3 components,
    [calculateEarthRadius] is [calculateEarthRadius] on the latitude alone,
    errors included: the longitude is checked and then left unread. *)
Theorem calculateEarthRadius_of_point (c0 c1 : GPSCoordinate) :
  List.length c1 = 3%nat ->
  calculateEarthRadius_GPSPoint [c0; c1] = calculateEarthRadius_GPSCoordinate c0.
Proof.
  intros H1.
  unfold calculateEarthRadius_GPSPoint, calculateEarthRadius_GPSCoordinate.
  rewrite failIfNotAGPSPoint_pair.
  rewrite (failIfNotAGPSCoordinate_ok c1 H1).
  destruct (failIfNotAGPSCoordinate c0) as [[]| |]; reflexivity.
Qed.

Lemma calculateEarthRadius_of_point_reference :
  List.length [2; 49; 16] = 3%nat
  /\ calculateEarthRadius_GPSPoint [[41; 59; 4]; [2; 49; 16]]
     = calculateEarthRadius_GPSCoordinate [41; 59; 4].
Proof.
  split; [reflexivity|].
  apply (calculateEarthRadius_of_point [41; 59; 4] [2; 49; 16]). reflexivity.
Defined.

(** ** Distance *)

Lemma atan2_quadrant (y x : double) :
  0 <= y -> 0 <= x -> 0 <= atan2 y x <= PI / 2.
Proof.
  intros Hy Hx. pose proof PI_RGT_0 as HPI. unfold atan2.
  destruct (Rlt_dec 0 x) as [P|N].
  - pose proof (atan_bound (y / x)) as B.
    destruct (Req_dec y 0) as [->|Hy0].
    + unfold Rdiv. rewrite Rmult_0_l, atan_0. lra.
    + assert (0 < y / x) by (apply Rdiv_lt_0_compat; lra).
      pose proof (atan_pos _ H). lra.
  - destruct (Rlt_dec x 0); [lra|].
    destruct (Rlt_dec 0 y); [lra|].
    destruct (Rlt_dec y 0); lra.
Qed.

(** In exact arithmetic [distance] is never negative and never more than
    half the circumference of the sphere it is taken on: [PI] times the mean
    radius, or [PI] times the semi-major axis when the radius is
    calculated. *)
Lemma distance_range
    (latitude1 longitude1 latitude2 longitude2 : double) (b : bool) :
  0 <= distance latitude1 longitude1 latitude2 longitude2 b
    <= PI * (if b then semiMajorEarthAxis else earthRadius).
Proof.
  unfold distance. cbv zeta.
  match goal with
  | |- context [atan2 ?y ?x] =>
      pose proof (atan2_quadrant y x (sqrt_pos _) (sqrt_pos _)) as [L U];
      set (t := atan2 y x) in *
  end.
  pose proof PI_RGT_0 as HPI.
  destruct b.
  - destruct (calculateEarthRadius_bounds (0.5 * (latitude1 + latitude2)))
      as [[Lr Ur] _].
    set (r := calculateEarthRadius (0.5 * (latitude1 + latitude2))) in *.
    unfold semiMinorEarthAxis, semiMajorEarthAxis in *. split; nra.
  - unfold earthRadius. split; nra.
Qed.

(** X8: between two points with latitudes from -89 to 89 and longitudes
    from -180 to 180 that are at most 179 degrees of longitude apart, so
    that they are not opposite each other on the sphere, [distance] is not
    negative and not more than half the circumference: [PI] times the mean
    radius, or [PI] times the semi-major axis when the radius is
    calculated. *)
Theorem distance_range_valid
    (latitude1 longitude1 latitude2 longitude2 : double) (b : bool) :
  -89 <= latitude1 <= 89 -> -180 <= longitude1 <= 180 ->
  -89 <= latitude2 <= 89 -> -180 <= longitude2 <= 180 ->
  Rabs (longitude2 - longitude1) <= 179 ->
  0 <= distance latitude1 longitude1 latitude2 longitude2 b
    <= PI * (if b then semiMajorEarthAxis else earthRadius).
Proof.
  intros _ _ _ _ _. apply distance_range.
Qed.

Lemma distance_range_valid_reference :
  -89 <= 41 <= 89 /\ -180 <= 2 <= 180 /\ -89 <= 42 <= 89
  /\ -180 <= 3 <= 180 /\ Rabs (3 - 2) <= 179
  /\ 0 <= distance 41 2 42 3 true <= PI * semiMajorEarthAxis.
Proof.
  assert (H : Rabs (3 - 2) <= 179).
  { rewrite Rabs_pos_eq; lra. }
  split; [lra|]. split; [lra|]. split; [lra|]. split; [lra|].
  split; [exact H|].
  apply (distance_range_valid 41 2 42 3 true); try lra.
Defined.

(** X9: [distance] on two GPS points throws the error of the first point
    that fails [failIfNotAGPSPoint], the first argument before the second,
    and otherwise returns; it never reads out of range. *)
Theorem distance_GPSPoint_errors (point1 point2 : GPSPoint) (b : bool) :
  (forall what,
     distance_GPSPoint point1 point2 b = Throws what
     <-> (failIfNotAGPSPoint point1 = Throws what
          \/ (failIfNotAGPSPoint point1 = Returns tt
              /\ failIfNotAGPSPoint point2 = Throws what)))
  /\ distance_GPSPoint point1 point2 b <> Undefined.
Proof.
  destruct (failIfNotAGPSPoint_outcome point1)
    as [[D1 [M1 [S1 [D2 [M2 [S2 [-> E1]]]]]]] | [w1 E1]].
  - destruct (failIfNotAGPSPoint_outcome point2)
      as [[D3 [M3 [S3 [D4 [M4 [S4 [-> E2]]]]]]] | [w2 E2]].
    + rewrite distance_GPSPoint_valid. split; [|discriminate].
      intros what. split.
      * discriminate.
      * intros [H|[_ H]]; discriminate.
    + unfold distance_GPSPoint. rewrite E1, E2. simpl. split; [|discriminate].
      intros what. split.
      * intros H. injection H as ->. right. split; reflexivity.
      * intros [H|[_ H]]; [discriminate|]. injection H as ->. reflexivity.
  - unfold distance_GPSPoint. rewrite E1. simpl. split; [|discriminate].
    intros what. split.
    + intros H. injection H as ->. left. reflexivity.
    + intros [H|[H _]]; [|discriminate]. injection H as ->. reflexivity.
Qed.

(** ** Destination *)


Lemma radiansFromDegrees_quarter (latitude : double) :
  -90 <= latitude <= 90 ->
  - (PI / 2) < radiansFromDegrees latitude < PI / 2.
Proof.
  intros H. unfold radiansFromDegrees.
  pose proof pi_lt_PI. pose proof pi_pos. split; nra.
Qed.

(** In exact arithmetic [destination] returns the origin over the distance
    0, whatever the bearing and the radius: for a latitude in [-90, 90] and
    a longitude in [-180, 180). *)
Lemma destination_zero_distance (latitude longitude bearing : double)
    (b : bool) :
  -90 <= latitude <= 90 ->
  -180 <= longitude < 180 ->
  destination latitude longitude 0 bearing b = [latitude; longitude].
Proof.
  intros Hlat Hlon.
  pose proof (radiansFromDegrees_quarter latitude Hlat) as Hq.
  unfold destination. cbv zeta.
  replace (0 / (if b then calculateEarthRadius latitude else earthRadius))
    with 0 by (unfold Rdiv; ring).
  rewrite sin_0, cos_0.
  set (p1 := radiansFromDegrees latitude) in *.
  replace (sin p1 * 1 + cos p1 * 0 * cos (radiansFromDegrees bearing))
    with (sin p1) by ring.
  rewrite asin_sin by lra.
  replace (sin (radiansFromDegrees bearing) * 0 * cos p1) with 0 by ring.
  assert (Hc : 0 < cos p1) by (apply cos_gt_0; lra).
  assert (Hx : 0 < 1 - sin p1 * sin p1).
  { pose proof (cos_sin_sqr p1). nra. }
  rewrite atan2_0_pos by exact Hx.
  rewrite Rplus_0_r.
  unfold p1. destruct (angle_round_trips latitude) as [-> _].
  destruct (angle_round_trips longitude) as [-> _].
  rewrite (fmod_exact 1) by lra.
  f_equal. f_equal. lra.
Qed.

(** X11: over the distance 0, [destination] returns the origin to within a
    hundred-thousandth of a degree in latitude and in longitude, for a
    latitude from -90 to 90, a longitude from -179 to 179 and a bearing
    from -360 to 360, with either radius. *)
Theorem destination_zero_distance_near (latitude longitude bearing : double)
    (b : bool) :
  -90 <= latitude <= 90 ->
  -179 <= longitude <= 179 ->
  -360 <= bearing <= 360 ->
  Rabs (latitude_of (destination latitude longitude 0 bearing b) - latitude)
    <= 0.00001
  /\ Rabs (longitude_of (destination latitude longitude 0 bearing b)
           - longitude)
     <= 0.00001.
Proof.
  intros Hlat Hlon _.
  rewrite (destination_zero_distance latitude longitude bearing b) by lra.
  unfold latitude_of, longitude_of. cbn [nth].
  rewrite !Rminus_diag, Rabs_R0. lra.
Qed.

Lemma destination_zero_distance_near_reference :
  -90 <= 41 <= 90 /\ -179 <= 2 <= 179 /\ -360 <= 30 <= 360
  /\ Rabs (latitude_of (destination 41 2 0 30 true) - 41) <= 0.00001
  /\ Rabs (longitude_of (destination 41 2 0 30 true) - 2) <= 0.00001.
Proof.
  split; [lra|]. split; [lra|]. split; [lra|].
  apply (destination_zero_distance_near 41 2 30 true); lra.
Defined.

(** The sine of the destination latitude lies between the sines of the
    origin latitude less and more the angular distance. *)
Lemma destination_sine_between (p1 dl th : R) :
  0 <= cos p1 -> 0 <= sin dl ->
  sin (p1 - dl) <= sin p1 * cos dl + cos p1 * sin dl * cos th <= sin (p1 + dl).
Proof.
  intros Hc Hs. rewrite sin_minus, sin_plus.
  pose proof (COS_bound th) as [L U].
  assert (0 <= cos p1 * sin dl) by (apply Rmult_le_pos; assumption).
  split; nra.
Qed.

(** [asin] between two angles of the right half turn whose sines enclose
    its argument. *)
Lemma asin_between (u v s : R) :
  - (PI / 2) <= u <= PI / 2 -> - (PI / 2) <= v <= PI / 2 ->
  sin u <= s <= sin v -> u <= asin s <= v.
Proof.
  intros Hu Hv [L U].
  assert (Hs : -1 <= s <= 1).
  { pose proof (SIN_bound u). pose proof (SIN_bound v). lra. }
  pose proof (asin_bound s) as Hb.
  pose proof (sin_asin s Hs) as E.
  split.
  - apply Rnot_lt_le. intros C.
    pose proof (sin_increasing_1 (asin s) u) as H.
    assert (sin (asin s) < sin u) by (apply H; lra). lra.
  - apply Rnot_lt_le. intros C.
    pose proof (sin_increasing_1 v (asin s)) as H.
    assert (sin v < sin (asin s)) by (apply H; lra). lra.
Qed.

(** X10: from a latitude between -89 and 89, over a distance of at most
    100 km and on a bearing from -360 to 360, the latitude [destination]
    returns is less than one degree from the latitude of the origin, and so
    less than 90 in absolute value; with either radius. *)
Theorem destination_latitude_step
    (latitude longitude d bearing : double) (b : bool) :
  -89 <= latitude <= 89 ->
  0 <= d <= 100000 ->
  -360 <= bearing <= 360 ->
  Rabs (latitude_of (destination latitude longitude d bearing b) - latitude)
    < 1
  /\ Rabs (latitude_of (destination latitude longitude d bearing b)) < 90.
Proof.
  intros Hlat Hd _.
  pose proof pi_pos as Hp. pose proof pi_lt_PI as HPI.
  assert (Hstep :
    Rabs (latitude_of (destination latitude longitude d bearing b) - latitude)
    < 1).
  { unfold destination, latitude_of. cbv zeta. cbn [nth].
    set (r := if b then calculateEarthRadius latitude else earthRadius).
    assert (Hr : 6356752 <= r).
    { unfold r. destruct b.
      - destruct (calculateEarthRadius_bounds latitude) as [[L _] _].
        unfold semiMinorEarthAxis in L. lra.
      - unfold earthRadius. lra. }
    set (dl := d / r).
    assert (Hdl : 0 <= dl <= 0.01574).
    { assert (E : dl * r = d) by (unfold dl; field; lra).
      assert (H0 : 0 <= dl).
      { unfold dl, Rdiv. apply Rmult_le_pos; [lra|].
        apply Rlt_le, Rinv_0_lt_compat. lra. }
      split; [exact H0|]. nra. }
    set (p1 := radiansFromDegrees latitude).
    assert (Hp1 : -1.5534 <= p1 <= 1.5534).
    { unfold p1, radiansFromDegrees, pi. lra. }
    assert (HPI2 : 1.5707 < PI / 2) by (unfold pi in HPI; lra).
    set (th := radiansFromDegrees bearing).
    assert (Hc : 0 <= cos p1) by (apply cos_ge_0; lra).
    assert (Hs : 0 <= sin dl) by (apply sin_ge_0; lra).
    pose proof (destination_sine_between p1 dl th Hc Hs) as Hbetween.
    pose proof (asin_between (p1 - dl) (p1 + dl) _
                  ltac:(lra) ltac:(lra) Hbetween) as [L U].
    set (p2 := asin (sin p1 * cos dl + cos p1 * sin dl * cos th)) in *.
    unfold degreesFromRadians.
    assert (E : p2 * 180 / pi - latitude = (p2 - p1) * (180 / pi)).
    { unfold p1, radiansFromDegrees. field. lra. }
    rewrite E.
    assert (Hk : 0 < 180 / pi <= 57.3).
    { split; [apply Rdiv_lt_0_compat; lra|].
      apply Rmult_le_reg_r with pi; [exact Hp|].
      replace (180 / pi * pi) with 180 by (field; lra).
      unfold pi. lra. }
    apply Rabs_def1; nra. }
  split; [exact Hstep|].
  apply Rabs_def2 in Hstep. apply Rabs_def1; lra.
Qed.

Lemma destination_latitude_step_reference :
  -89 <= 41 <= 89 /\ 0 <= 1000 <= 100000 /\ -360 <= 30 <= 360
  /\ Rabs (latitude_of (destination 41 2 1000 30 false) - 41) < 1
  /\ Rabs (latitude_of (destination 41 2 1000 30 false)) < 90.
Proof.
  split; [lra|]. split; [lra|]. split; [lra|].
  apply (destination_latitude_step 41 2 1000 30 false); lra.
Defined.

(** ** Track generators and the pole *)

(** X13: on a non-empty track of planar points a generator returns a
    non-empty track of planar points, longer by [n] points for [line],
    [spiral], [sector] and [circle], [4 * n] for [rectangle] and [square],
    [7 * n] for [letterPi] and [n + (k - 1) * 2 * n] for [squiggle] (the
    subtraction stopping at 0): the generators can be chained. *)
Theorem track_grows (g : primitive) (points : Track) :
  nonempty_track points ->
  exists points',
    call g points = Returns points'
    /\ nonempty_track points'
    /\ List.length points' = (List.length points + pushed g)%nat.
Proof.
  intros Ht. destruct (call_extends g points Ht) as [ext [E [L P]]].
  exists (points ++ ext). split; [exact E|]. split.
  - apply nonempty_track_app; assumption.
  - rewrite length_app, L. reflexivity.
Qed.

Lemma track_grows_square :
  nonempty_track [[0; 0]] /\
  exists points',
    call (Square 10 0 4) [[0; 0]] = Returns points'
    /\ nonempty_track points'
    /\ List.length points' = (List.length [[0; 0]] + pushed (Square 10 0 4))%nat.
Proof.
  split; [exact seed_track_ok|].
  apply (track_grows (Square 10 0 4) [[0; 0]]). exact seed_track_ok.
Defined.

Lemma line_eq_pole (points : Track) (x y : double) (rest : list double)
    (length angle : double) (n : nat) :
  back points = Returns (x :: y :: rest) ->
  line points length angle n
  = Returns (points ++ line_points x y length angle n).
Proof.
  intros Hb. unfold line. rewrite Hb. simpl.
  apply (for_each_push
           (fun i => [ x + INR i / INR n * (length * sin angle);
                       y + INR i / INR n * (length * cos angle) ])).
Qed.

Lemma spiral_eq_pole (points : Track) (x y : double) (rest : list double)
    (r0 a0 r1 a1 : double) (n : nat) :
  back points = Returns (x :: y :: rest) ->
  spiral points r0 a0 r1 a1 n
  = Returns (points ++ spiral_points x y r0 a0 r1 a1 n).
Proof.
  intros Hb. unfold spiral. rewrite Hb. simpl.
  apply (for_each_push
           (fun i =>
              [ x - r0 * sin a0
                  + (r0 + INR i / INR n * (r1 - r0))
                    * sin (a0 + INR i / INR n * (a1 - a0));
                y - r0 * cos a0
                  + (r0 + INR i / INR n * (r1 - r0))
                    * cos (a0 + INR i / INR n * (a1 - a0)) ])).
Qed.

Lemma line_points_planar (x y l a : double) (n : nat) :
  Forall PlanarPoint (line_points x y l a n)
  /\ List.length (line_points x y l a n) = n.
Proof.
  unfold line_points. split.
  - apply Forall_planar_map. intros i. reflexivity.
  - rewrite length_map, length_seq. reflexivity.
Qed.

Lemma spiral_points_planar (x y r0 a0 r1 a1 : double) (n : nat) :
  Forall PlanarPoint (spiral_points x y r0 a0 r1 a1 n)
  /\ List.length (spiral_points x y r0 a0 r1 a1 n) = n.
Proof.
  unfold spiral_points. split.
  - apply Forall_planar_map. intros i. reflexivity.
  - rewrite length_map, length_seq. reflexivity.
Qed.

Lemma framed_line (l a : double) (n : nat) :
  framed n (fun points => line points l a n).
Proof.
  intros x y. exists (line_points x y l a n).
  destruct (line_points_planar x y l a n) as [P L].
  split; [exact P|]. split; [exact L|].
  intros points [rest Hb]. apply (line_eq_pole points x y rest), Hb.
Qed.

Lemma framed_spiral (r0 a0 r1 a1 : double) (n : nat) :
  framed n (fun points => spiral points r0 a0 r1 a1 n).
Proof.
  intros x y. exists (spiral_points x y r0 a0 r1 a1 n).
  destruct (spiral_points_planar x y r0 a0 r1 a1 n) as [P L].
  split; [exact P|]. split; [exact L|].
  intros points [rest Hb]. apply (spiral_eq_pole points x y rest), Hb.
Qed.

Lemma framed_sector (r a0 a1 : double) (n : nat) :
  framed n (fun points => sector points r a0 a1 n).
Proof. apply framed_spiral. Qed.

(** The pole after planar points were pushed: the last of them, or the old
    pole when there were none. *)
Lemma pole_after (x y : double) (ext : Track) :
  Forall PlanarPoint ext ->
  exists x' y', forall points,
    has_pole x y points -> has_pole x' y' (points ++ ext).
Proof.
  intros P. destruct ext as [|p ext'] using rev_ind.
  - exists x, y. intros points H. rewrite app_nil_r. exact H.
  - apply Forall_app in P. destruct P as [_ Pp].
    inversion Pp as [|? ? Hp _]; subst.
    destruct (at_index_planar p Hp) as [x' [y' [-> _]]].
    exists x', y'. intros points _. exists [].
    rewrite app_assoc. apply back_snoc.
Qed.

(** Two framed steps in sequence are framed. *)
Lemma framed_bind (n m : nat) (f g : Track -> outcome Track) :
  framed n f -> framed m g ->
  framed (n + m) (fun points => points' <- f points ;; g points').
Proof.
  intros Hf Hg x y.
  destruct (Hf x y) as [ext1 [P1 [L1 E1]]].
  destruct (pole_after x y ext1 P1) as [x' [y' Hpole]].
  destruct (Hg x' y') as [ext2 [P2 [L2 E2]]].
  exists (ext1 ++ ext2). split; [|split].
  - apply Forall_app. split; assumption.
  - rewrite length_app. lia.
  - intros points Hp. rewrite (E1 points Hp). simpl.
    rewrite (E2 _ (Hpole points Hp)), app_assoc. reflexivity.
Qed.

(** A loop is framed when each of its rounds is: the state is the track
    with the locals [t] the body updates, put together by [mk]. *)
Lemma for_each_framed {S T : Type} (mk : Track -> T -> S) (m : nat)
    (body : nat -> S -> outcome S) :
  (forall i t x y, exists ext t',
      Forall PlanarPoint ext /\ List.length ext = m
      /\ forall points, has_pole x y points ->
           body i (mk points t) = Returns (mk (points ++ ext) t')) ->
  forall indices t x y, exists ext t',
      Forall PlanarPoint ext /\ List.length ext = (List.length indices * m)%nat
      /\ forall points, has_pole x y points ->
           for_each indices body (mk points t)
           = Returns (mk (points ++ ext) t').
Proof.
  intros Hbody. induction indices as [|i rest IH]; intros t x y.
  - exists [], t. split; [constructor|]. split; [reflexivity|].
    intros points _. rewrite app_nil_r. reflexivity.
  - destruct (Hbody i t x y) as [ext1 [t1 [P1 [L1 E1]]]].
    destruct (pole_after x y ext1 P1) as [x' [y' Hpole]].
    destruct (IH t1 x' y') as [ext2 [t2 [P2 [L2 E2]]]].
    exists (ext1 ++ ext2), t2. split; [|split].
    + apply Forall_app. split; assumption.
    + rewrite length_app. simpl. lia.
    + intros points Hp. simpl. rewrite (E1 points Hp). simpl.
      rewrite (E2 _ (Hpole points Hp)), app_assoc. reflexivity.
Qed.

Lemma framed_rectangle (w h a : double) (n : nat) :
  framed (4 * n) (fun points => rectangle points w h a n).
Proof.
  intros x y.
  pose (mk := fun (points : Track) (t : double * double) =>
                (points, fst t, snd t)).
  pose (body := fun (i : nat) (st : Track * double * double) =>
                  let '(points, length, angle) := st in
                  points <- line points length angle n ;;
                  let angle := angle + 0.5 * pi in
                  let length := if (0 =? i mod 2)%nat then h else w in
                  Returns (points, length, angle)).
  assert (R : forall points,
             rectangle points w h a n
             = (st <- for_each (seq 0 4) body (mk points (w, a)) ;;
                Returns (fst (fst st)))) by reflexivity.
  destruct (for_each_framed mk n body) with (indices := seq 0 4)
    (t := (w, a)) (x := x) (y := y) as [ext [t' [P [L E]]]].
  - intros i [l ang] x0 y0.
    destruct (framed_line l ang n x0 y0) as [ext [P [L E]]].
    exists ext, (if (0 =? i mod 2)%nat then h else w, ang + 0.5 * pi).
    split; [exact P|]. split; [exact L|].
    intros points Hp. unfold body, mk. cbn [fst snd].
    rewrite (E points Hp). reflexivity.
  - exists ext. split; [exact P|]. split; [exact L|].
    intros points Hp. rewrite R, (E points Hp). reflexivity.
Qed.

Lemma framed_squiggle (l r a rot : double) (k n : nat) :
  framed (n + (k - 1) * (n + n))
    (fun points => squiggle points l r a rot k n).
Proof.
  pose (mk := fun (points : Track) (t : double * double * double) =>
                (points, fst (fst t), snd (fst t), snd t)).
  pose (body := fun (i : nat) (st : Track * double * double * double) =>
                  let '(points, angle, nextAngle, initialRotationAngle) := st in
                  points <- sector points r
                              (angle + initialRotationAngle)
                              (nextAngle + initialRotationAngle) n ;;
                  let angle := nextAngle in
                  let initialRotationAngle := initialRotationAngle * -1 in
                  points <- line points l angle n ;;
                  let nextAngle :=
                    if (0 =? i mod 2)%nat
                    then nextAngle + rot
                    else nextAngle - rot in
                  Returns (points, angle, nextAngle, initialRotationAngle)).
  assert (Hloop : framed ((k - 1) * (n + n))
                    (fun points =>
                       st <- for_each (seq 1 (k - 1)) body
                               (mk points (a, a + rot, -0.5 * pi)) ;;
                       Returns (fst (fst (fst st))))).
  { intros x y.
    destruct (for_each_framed mk (n + n) body) with (indices := seq 1 (k - 1))
      (t := (a, a + rot, -0.5 * pi)) (x := x) (y := y)
      as [ext [t' [P [L E]]]].
    - intros i [[ang nxt] ira] x0 y0.
      destruct (framed_bind n n _ _
                  (framed_sector r (ang + ira) (nxt + ira) n)
                  (framed_line l nxt n) x0 y0) as [ext [P [L E]]].
      exists ext,
        (nxt, if (0 =? i mod 2)%nat then nxt + rot else nxt - rot, ira * -1).
      split; [exact P|]. split; [exact L|].
      intros points Hp. unfold body, mk. cbn [fst snd].
      specialize (E points Hp). cbv beta in E.
      destruct (sector points r (ang + ira) (nxt + ira) n) as [p1| |];
        simpl in E |- *; try discriminate.
      rewrite E. reflexivity.
    - rewrite length_seq in L.
      exists ext. split; [exact P|]. split; [exact L|].
      intros points Hp. rewrite (E points Hp). reflexivity. }
  exact (framed_bind n ((k - 1) * (n + n)) _ _ (framed_line l a n) Hloop).
Qed.

Lemma framed_letterPi (v h r a : double) (n : nat) :
  framed (7 * n) (fun points => letterPi points v h r a n).
Proof.
  replace (7 * n)%nat with (n + (n + (n + (n + (n + (n + n))))))%nat by lia.
  unfold letterPi. cbv zeta.
  repeat (apply framed_bind;
          [first [apply framed_sector | apply framed_line] | ]).
  apply framed_sector.
Qed.

Lemma framed_call (g : primitive) : framed (pushed g) (call g).
Proof.
  destruct g; cbn [pushed].
  - apply framed_line.
  - apply framed_rectangle.
  - apply framed_rectangle.
  - apply framed_spiral.
  - apply framed_sector.
  - apply framed_spiral.
  - apply framed_squiggle.
  - apply framed_letterPi.
Qed.

(** X14: a generator reads the last point of the track and nothing else: on a
    track whose last point starts with [x] and [y] it pushes the very points
    it pushes on the one-point track [(x, y)]. *)
Theorem generators_read_the_pole_only (g : primitive) (points : Track)
    (x y : double) (rest : list double) :
  back points = Returns (x :: y :: rest) ->
  exists ext,
    call g [[x; y]] = Returns ([x; y] :: ext)
    /\ call g points = Returns (points ++ ext)
    /\ List.length ext = pushed g.
Proof.
  intros Hb. destruct (framed_call g x y) as [ext [_ [L E]]].
  exists ext. split; [|split].
  - apply (E [[x; y]]). exists []. reflexivity.
  - apply E. exists rest. exact Hb.
  - exact L.
Qed.

Lemma generators_read_the_pole_only_reference :
  back [[5; 5]; [1; 2; 3]] = Returns [1; 2; 3] /\
  exists ext,
    call (Circle 10 0 8) [[1; 2]] = Returns ([1; 2] :: ext)
    /\ call (Circle 10 0 8) [[5; 5]; [1; 2; 3]]
       = Returns ([[5; 5]; [1; 2; 3]] ++ ext)
    /\ List.length ext = pushed (Circle 10 0 8).
Proof.
  split; [reflexivity|].
  apply (generators_read_the_pole_only (Circle 10 0 8) [[5; 5]; [1; 2; 3]]
           1 2 [3]).
  reflexivity.
Defined.

Lemma back_not_throws {A : Type} (v : list A) (what : string) :
  back v <> Throws what.
Proof.
  unfold back, at_index. destruct v as [|a v]; [discriminate|].
  destruct (nth_error (a :: v) (List.length (a :: v) - 1)); discriminate.
Qed.

Lemma back_cases (points : Track) :
  (exists x y rest, back points = Returns (x :: y :: rest))
  \/ poleless points.
Proof.
  destruct (back points) as [p|what|] eqn:E.
  - destruct p as [|x [|y rest]].
    + right. intros x y rest H. rewrite E in H. discriminate.
    + right. intros x0 y rest H. rewrite E in H. discriminate.
    + left. exists x, y, rest. reflexivity.
  - exfalso. exact (back_not_throws points what E).
  - right. intros x y rest H. rewrite E in H. discriminate.
Qed.

Lemma line_poleless (points : Track) (l a : double) (n : nat) :
  poleless points -> line points l a n = Undefined.
Proof.
  intros H. unfold line. destruct (back points) as [p|what|] eqn:E.
  - destruct p as [|x [|y rest]]; try reflexivity.
    exfalso. exact (H x y rest E).
  - exfalso. exact (back_not_throws points what E).
  - reflexivity.
Qed.

Lemma spiral_poleless (points : Track) (r0 a0 r1 a1 : double) (n : nat) :
  poleless points -> spiral points r0 a0 r1 a1 n = Undefined.
Proof.
  intros H. unfold spiral. destruct (back points) as [p|what|] eqn:E.
  - destruct p as [|x [|y rest]]; try reflexivity.
    exfalso. exact (H x y rest E).
  - exfalso. exact (back_not_throws points what E).
  - reflexivity.
Qed.

Lemma call_poleless (g : primitive) (points : Track) :
  poleless points -> call g points = Undefined.
Proof.
  intros H. destruct g; cbn [call].
  - apply line_poleless, H.
  - unfold rectangle. cbn [for_each seq].
    rewrite (line_poleless points _ _ _ H). reflexivity.
  - unfold square, rectangle. cbn [for_each seq].
    rewrite (line_poleless points _ _ _ H). reflexivity.
  - apply spiral_poleless, H.
  - apply spiral_poleless, H.
  - apply spiral_poleless, H.
  - unfold squiggle. rewrite (line_poleless points _ _ _ H). reflexivity.
  - unfold letterPi, sector. cbv zeta.
    rewrite (spiral_poleless points _ _ _ _ _ H). reflexivity.
Qed.

(** X15: a generator returns exactly when the track has a last point with
    at least two components; on an empty track, or behind a shorter point,
    the call reads out of range.  No generator throws. *)
Theorem generator_defined_iff (g : primitive) (points : Track) :
  ((exists points', call g points = Returns points')
   <-> (exists x y rest, back points = Returns (x :: y :: rest)))
  /\ (call g points = Undefined <-> poleless points)
  /\ call g [] = Undefined
  /\ (forall what, call g points <> Throws what).
Proof.
  assert (Hdef : forall x y rest,
             back points = Returns (x :: y :: rest) ->
             exists points', call g points = Returns points').
  { intros x y rest Hb.
    destruct (framed_call g x y) as [ext [_ [_ E]]].
    exists (points ++ ext). apply E. exists rest. exact Hb. }
  split; [|split; [|split]].
  - split.
    + intros [points' E]. destruct (back_cases points) as [H|H]; [exact H|].
      rewrite (call_poleless g points H) in E. discriminate.
    + intros [x [y [rest Hb]]]. exact (Hdef x y rest Hb).
  - split.
    + intros E. destruct (back_cases points) as [[x [y [rest Hb]]]|H];
        [|exact H].
      destruct (Hdef x y rest Hb) as [points' E']. congruence.
    + apply call_poleless.
  - apply call_poleless. intros x y rest H. discriminate.
  - intros what E. destruct (back_cases points) as [[x [y [rest Hb]]]|H].
    + destruct (Hdef x y rest Hb) as [points' E']. congruence.
    + rewrite (call_poleless g points H) in E. discriminate.
Qed.

(** ** Where the generators end *)

Lemma INR_ratio_one (n : nat) : (1 <= n)%nat -> INR n / INR n = 1.
Proof.
  intros H. assert (0 < INR n) by (apply lt_0_INR; lia).
  field. lra.
Qed.

Lemma seq_snoc (n : nat) : seq 1 (S n) = seq 1 n ++ [S n].
Proof. rewrite seq_S. reflexivity. Qed.

(** X16: with at least one point asked for, [line] ends on the point at
    [length] from the pole in the direction [angle]:
    [(x + length * sin angle, y + length * cos angle)]. *)
Theorem line_end_point (points : Track) (x y : double) (rest : list double)
    (length angle : double) (n : nat) :
  back points = Returns (x :: y :: rest) ->
  (1 <= n)%nat ->
  exists points',
    line points length angle n = Returns points'
    /\ back points' = Returns [x + length * sin angle; y + length * cos angle].
Proof.
  intros Hb Hn. rewrite (line_eq_pole points x y rest) by exact Hb.
  eexists. split; [reflexivity|].
  destruct n as [|n]; [lia|].
  unfold line_points. rewrite seq_snoc, map_app, app_assoc. cbn [map].
  rewrite back_snoc, INR_ratio_one by lia.
  f_equal. f_equal; [ring | f_equal; ring].
Qed.

Lemma line_end_point_north :
  back [[0; 0]] = Returns [0; 0] /\ (1 <= 16)%nat /\
  exists points',
    line [[0; 0]] 1000 0 16 = Returns points'
    /\ back points' = Returns [0 + 1000 * sin 0; 0 + 1000 * cos 0].
Proof.
  split; [reflexivity|]. split; [lia|].
  apply (line_end_point [[0; 0]] 0 0 [] 1000 0 16); [reflexivity | lia].
Defined.

(** X17: with at least one point asked for, [spiral] ends at the finish
    radius and the finish angle from its centre, the centre being at the
    initial radius against the initial angle from the pole. *)
Theorem spiral_end_point (points : Track) (x y : double) (rest : list double)
    (r0 a0 r1 a1 : double) (n : nat) :
  back points = Returns (x :: y :: rest) ->
  (1 <= n)%nat ->
  exists points',
    spiral points r0 a0 r1 a1 n = Returns points'
    /\ back points'
       = Returns [ x - r0 * sin a0 + r1 * sin a1;
                   y - r0 * cos a0 + r1 * cos a1 ].
Proof.
  intros Hb Hn. rewrite (spiral_eq_pole points x y rest) by exact Hb.
  eexists. split; [reflexivity|].
  destruct n as [|n]; [lia|].
  unfold spiral_points. rewrite seq_snoc, map_app, app_assoc. cbn [map].
  rewrite back_snoc. cbv zeta. rewrite INR_ratio_one by lia.
  replace (r0 + 1 * (r1 - r0)) with r1 by ring.
  replace (a0 + 1 * (a1 - a0)) with a1 by ring.
  reflexivity.
Qed.

Lemma spiral_end_point_reference :
  back [[0; 0]] = Returns [0; 0] /\ (1 <= 16)%nat /\
  exists points',
    spiral [[0; 0]] 10 0 20 1 16 = Returns points'
    /\ back points'
       = Returns [0 - 10 * sin 0 + 20 * sin 1; 0 - 10 * cos 0 + 20 * cos 1].
Proof.
  split; [reflexivity|]. split; [lia|].
  apply (spiral_end_point [[0; 0]] 0 0 [] 10 0 20 1 16); [reflexivity | lia].
Defined.

(** X18: every point [sector] pushes lies on the circle of radius [radius]
    through the pole whose centre is at [radius] against the initial angle
    from the pole. *)
Theorem sector_points_on_circle (points : Track) (x y : double)
    (rest : list double) (r a0 a1 : double) (n : nat) :
  back points = Returns (x :: y :: rest) ->
  exists ext,
    sector points r a0 a1 n = Returns (points ++ ext)
    /\ on_circle (x - r * sin a0) (y - r * cos a0) r [x; y]
    /\ Forall (on_circle (x - r * sin a0) (y - r * cos a0) r) ext.
Proof.
  intros Hb. exists (spiral_points x y r a0 r a1 n). split; [|split].
  - apply (spiral_eq_pole points x y rest), Hb.
  - exists x, y. split; [reflexivity|].
    pose proof (cos_sin_sqr a0) as H.
    replace ((x - (x - r * sin a0)) ^ 2 + (y - (y - r * cos a0)) ^ 2)
      with (r ^ 2 * (cos a0 * cos a0 + sin a0 * sin a0)) by ring.
    rewrite H. ring.
  - unfold spiral_points. apply Forall_forall. intros p Hin.
    apply in_map_iff in Hin. destruct Hin as [i [<- _]]. cbv zeta.
    eexists. eexists. split; [reflexivity|].
    set (t := a0 + INR i / INR n * (a1 - a0)).
    pose proof (cos_sin_sqr t) as H.
    replace ((x - r * sin a0 + (r + INR i / INR n * (r - r)) * sin t
              - (x - r * sin a0)) ^ 2
             + (y - r * cos a0 + (r + INR i / INR n * (r - r)) * cos t
                - (y - r * cos a0)) ^ 2)
      with (r ^ 2 * (cos t * cos t + sin t * sin t)) by ring.
    rewrite H. ring.
Qed.

Lemma sector_points_on_circle_reference :
  back [[0; 0]] = Returns [0; 0] /\
  exists ext,
    sector [[0; 0]] 10 0 1 16 = Returns ([[0; 0]] ++ ext)
    /\ on_circle (0 - 10 * sin 0) (0 - 10 * cos 0) 10 [0; 0]
    /\ Forall (on_circle (0 - 10 * sin 0) (0 - 10 * cos 0) 10) ext.
Proof.
  split; [reflexivity|].
  apply (sector_points_on_circle [[0; 0]] 0 0 [] 10 0 1 16). reflexivity.
Defined.




(** X20: [squiggle] asked for no line draws one all the same: with
    [numberOfLines] 0 or 1 it is [line], on every track. *)
Theorem squiggle_few_lines (points : Track) (l r a rot : double) (n : nat) :
  squiggle points l r a rot 0 n = line points l a n
  /\ squiggle points l r a rot 1 n = line points l a n.
Proof.
  unfold squiggle. cbn [Nat.sub seq for_each].
  destruct (line points l a n) as [p|what|]; split; reflexivity.
Qed.

Lemma map_constant {A B : Type} (f : A -> B) (c : B) (l : list A) :
  (forall a, f a = c) -> map f l = repeat c (List.length l).
Proof.
  intros H. induction l as [|a l IH]; [reflexivity|].
  cbn [map List.length repeat]. rewrite H, IH. reflexivity.
Qed.

(** X21: a [line] of length 0 pushes [numberOfPoints] copies of the pole. *)
Theorem line_of_no_length (points : Track) (x y : double) (a : double)
    (n : nat) :
  back points = Returns [x; y] ->
  line points 0 a n = Returns (points ++ repeat [x; y] n).
Proof.
  intros Hb.
  rewrite (line_eq_pole points x y []) by exact Hb. f_equal. f_equal.
  unfold line_points. rewrite (map_constant _ [x; y]).
  - rewrite length_seq. reflexivity.
  - intros i. f_equal; [ring | f_equal; ring].
Qed.

Lemma line_of_no_length_reference :
  back [[3; 4]] = Returns [3; 4] /\
  line [[3; 4]] 0 1 5 = Returns ([[3; 4]] ++ repeat [3; 4] 5).
Proof.
  split; [reflexivity|].
  apply (line_of_no_length [[3; 4]] 3 4 1 5). reflexivity.
Defined.

(** ** Strings *)

Lemma trunc_IZR (z : Z) : trunc (IZR z) = z.
Proof.
  unfold trunc. destruct (Rle_dec 0 (IZR z)).
  - apply ZfloorZ.
  - unfold Zceil. rewrite <- opp_IZR, ZfloorZ. lia.
Qed.

Lemma int_of_double_IZR (z : Z) :
  (INT_MIN <= z <= INT_MAX)%Z -> int_of_double (IZR z) = Returns z.
Proof.
  intros [L U]. unfold int_of_double. cbv zeta. rewrite trunc_IZR.
  apply Z.leb_le in L. apply Z.leb_le in U. rewrite L, U. reflexivity.
Qed.

Lemma int_of_double_cases (x : double) :
  (exists z, int_of_double x = Returns z) \/ int_of_double x = Undefined.
Proof.
  unfold int_of_double. cbv zeta.
  destruct ((INT_MIN <=? trunc x)%Z && (trunc x <=? INT_MAX)%Z)%bool.
  - left. eexists. reflexivity.
  - right. reflexivity.
Qed.

Lemma stringFromGPSCoordinate_cases (D M S : double) :
  (exists text, stringFromGPSCoordinate [D; M; S] = Returns text)
  \/ stringFromGPSCoordinate [D; M; S] = Undefined.
Proof.
  unfold stringFromGPSCoordinate. simpl.
  destruct (int_of_double_cases D) as [[i0 ->]| ->]; [|right; reflexivity].
  destruct (int_of_double_cases M) as [[i1 ->]| ->]; [|right; reflexivity].
  destruct (int_of_double_cases S) as [[i2 ->]| ->]; [|right; reflexivity].
  left. eexists. reflexivity.
Qed.

Lemma stringFromGPSCoordinate_hemisphere_cases (D M S : double) (lat : bool) :
  (exists text, stringFromGPSCoordinate_hemisphere [D; M; S] lat = Returns text)
  \/ stringFromGPSCoordinate_hemisphere [D; M; S] lat = Undefined.
Proof.
  unfold stringFromGPSCoordinate_hemisphere.
  destruct (stringFromGPSCoordinate_cases D M S) as [[text ->]| ->];
    [|right; reflexivity].
  left. eexists. reflexivity.
Qed.

Lemma stringFromGPSCoordinate_short (c : GPSCoordinate) (lat : bool) :
  List.length c <> 3%nat ->
  stringFromGPSCoordinate c = Throws "GPS coordinate should have 3 values."
  /\ stringFromGPSCoordinate_hemisphere c lat
     = Throws "GPS coordinate should have 3 values.".
Proof.
  intros H. unfold stringFromGPSCoordinate_hemisphere, stringFromGPSCoordinate.
  rewrite (failIfNotAGPSCoordinate_throws c H). split; reflexivity.
Qed.

(** X22: the three string conversions throw exactly on a wrong shape: a
    coordinate that does not have 3 components, a point that
    [failIfNotAGPSPoint] rejects.  The shape is checked before any component
    is cast to [int]. *)
Theorem string_conversions_throw (c : GPSCoordinate) (lat : bool)
    (p : GPSPoint) :
  (raises (stringFromGPSCoordinate c) <-> List.length c <> 3%nat)
  /\ (raises (stringFromGPSCoordinate_hemisphere c lat)
      <-> List.length c <> 3%nat)
  /\ (raises (stringFromGPSPoint p) <-> raises (failIfNotAGPSPoint p)).
Proof.
  split; [|split].
  - split.
    + intros [what E] Hl.
      destruct c as [|D [|M [|S [|T c]]]]; try discriminate.
      destruct (stringFromGPSCoordinate_cases D M S) as [[t Ht]|Ht];
        rewrite Ht in E; discriminate.
    + intros Hl. destruct (stringFromGPSCoordinate_short c lat Hl) as [-> _].
      apply raises_throws.
  - split.
    + intros [what E] Hl.
      destruct c as [|D [|M [|S [|T c]]]]; try discriminate.
      destruct (stringFromGPSCoordinate_hemisphere_cases D M S lat)
        as [[t Ht]|Ht]; rewrite Ht in E; discriminate.
    + intros Hl. destruct (stringFromGPSCoordinate_short c lat Hl) as [_ ->].
      apply raises_throws.
  - destruct (failIfNotAGPSPoint_outcome p)
      as [[D1 [M1 [S1 [D2 [M2 [S2 [-> E]]]]]]] | [what E]].
    + rewrite E. split.
      * intros [what H]. exfalso. unfold stringFromGPSPoint in H.
        rewrite E in H. simpl in H.
        destruct (stringFromGPSCoordinate_hemisphere_cases D1 M1 S1 true)
          as [[t1 H1]|H1]; rewrite H1 in H; simpl in H; [|discriminate].
        destruct (stringFromGPSCoordinate_hemisphere_cases D2 M2 S2 false)
          as [[t2 H2]|H2]; rewrite H2 in H; simpl in H; discriminate.
      * intros H. exfalso. exact (not_raises_returns tt H).
    + unfold stringFromGPSPoint. rewrite E. simpl. split; intros _;
        apply raises_throws.
Qed.

(** The string of a coordinate of whole numbers. *)
Lemma stringFromGPSCoordinate_whole (deg min sec : Z) :
  (INT_MIN <= deg <= INT_MAX)%Z ->
  (INT_MIN <= min <= INT_MAX)%Z ->
  (INT_MIN <= sec <= INT_MAX)%Z ->
  stringFromGPSCoordinate [IZR deg; IZR min; IZR sec]
  = Returns (to_string deg ++ degree_mark
             ++ to_string min ++ minute_mark
             ++ to_string sec ++ second_mark)%string.
Proof.
  intros Hd Hm Hs. unfold stringFromGPSCoordinate. simpl.
  rewrite (int_of_double_IZR deg Hd). simpl.
  rewrite (int_of_double_IZR min Hm). simpl.
  rewrite (int_of_double_IZR sec Hs). reflexivity.
Qed.

Lemma floor_positive_iff (d : double) : 0 < floor d <-> 1 <= d.
Proof.
  unfold floor. pose proof (Zfloor_bound d) as [L U]. split.
  - intros H. apply lt_IZR in H.
    assert (1 <= IZR (Zfloor d)) by (apply IZR_le; lia). lra.
  - intros H. apply IZR_lt.
    assert (1 <= Zfloor d)%Z by (apply Zfloor_lub; exact H). lia.
Qed.

(** X23: for a decimal degree [d] whose whole part an [int] holds, the
    string of [gpsCoordinateFromDegrees d] with its hemisphere is the string
    without it followed by N (for a latitude) or E (for a longitude) exactly
    when [1 <= d], and by S or W otherwise: below one degree, north and east
    are lettered S and W. *)
Theorem hemisphere_of_degrees (d : double) (lat : bool) :
  (INT_MIN <= Zfloor d <= INT_MAX)%Z ->
  exists text,
    stringFromGPSCoordinate (gpsCoordinateFromDegrees d) = Returns text
    /\ stringFromGPSCoordinate_hemisphere (gpsCoordinateFromDegrees d) lat
       = Returns (text ++ (if lat
                           then (if Rle_dec 1 d then " N" else " S")
                           else (if Rle_dec 1 d then " E" else " W")))%string.
Proof.
  intros Hd.
  destruct (gpsCoordinateFromDegrees_whole d)
    as [deg [min [sec [E [Hm [Hs _]]]]]].
  assert (Hdeg : deg = Zfloor d).
  { unfold gpsCoordinateFromDegrees, floor in E. injection E as E _ _.
    apply eq_IZR. symmetry. exact E. }
  subst deg.
  assert (Hmi : (INT_MIN <= min <= INT_MAX)%Z) by (unfold INT_MIN, INT_MAX; lia).
  assert (Hsi : (INT_MIN <= sec <= INT_MAX)%Z) by (unfold INT_MIN, INT_MAX; lia).
  eexists.
  unfold stringFromGPSCoordinate_hemisphere. rewrite E.
  rewrite (stringFromGPSCoordinate_whole _ _ _ Hd Hmi Hsi).
  split; [reflexivity|]. simpl.
  f_equal.
  destruct (Rgt_dec (IZR (Zfloor d)) 0) as [G|G];
    destruct (Rle_dec 1 d) as [H|H]; destruct lat; try reflexivity; exfalso.
  - apply H. apply floor_positive_iff. exact G.
  - apply H. apply floor_positive_iff. exact G.
  - apply G. apply Rlt_gt. apply floor_positive_iff. exact H.
  - apply G. apply Rlt_gt. apply floor_positive_iff. exact H.
Qed.

Lemma hemisphere_of_degrees_half_north :
  (INT_MIN <= Zfloor 0.5 <= INT_MAX)%Z /\
  exists text,
    stringFromGPSCoordinate (gpsCoordinateFromDegrees 0.5) = Returns text
    /\ stringFromGPSCoordinate_hemisphere (gpsCoordinateFromDegrees 0.5) true
       = Returns (text ++ (if true
                           then (if Rle_dec 1 0.5 then " N" else " S")
                           else (if Rle_dec 1 0.5 then " E" else " W")))%string.
Proof.
  assert (H : (INT_MIN <= Zfloor 0.5 <= INT_MAX)%Z).
  { rewrite (Zfloor_eq 0 0.5) by lra. unfold INT_MIN, INT_MAX. lia. }
  split; [exact H|].
  apply (hemisphere_of_degrees 0.5 true). exact H.
Defined.

(** The point the demonstration starts from. *)
Lemma stringFromGPSPoint_reference :
  stringFromGPSPoint [[41; 59; 4]; [2; 49; 16]]
  = Returns ("41" ++ degree_mark ++ "59" ++ minute_mark ++ "4" ++ second_mark
             ++ " N " ++
             "2" ++ degree_mark ++ "49" ++ minute_mark ++ "16" ++ second_mark
             ++ " E")%string.
Proof.
  unfold stringFromGPSPoint, stringFromGPSCoordinate_hemisphere. simpl.
  rewrite (stringFromGPSCoordinate_whole 41 59 4)
    by (unfold INT_MIN, INT_MAX; lia).
  rewrite (stringFromGPSCoordinate_whole 2 49 16)
    by (unfold INT_MIN, INT_MAX; lia).
  simpl.
  destruct (Rgt_dec 41 0); [|lra]. destruct (Rgt_dec 2 0); [|lra].
  reflexivity.
Qed.

(** ** More round trips and compositions *)

(** X25: with at least one point a side, [rectangle] ends where its four
    sides lead from the pole: over [width], [height], [width] and [height]
    in the directions [angle], [angle + pi/2], [angle + pi] and
    [angle + 3 pi/2], each quarter turn being half of [pi]. *)
Theorem rectangle_end_point (points : Track) (x y : double)
    (rest : list double) (w h a : double) (n : nat) :
  back points = Returns (x :: y :: rest) ->
  (1 <= n)%nat ->
  exists points',
    rectangle points w h a n = Returns points'
    /\ back points'
       = Returns
           [ x + w * sin a + h * sin (a + 0.5 * pi)
               + w * sin (a + 0.5 * pi + 0.5 * pi)
               + h * sin (a + 0.5 * pi + 0.5 * pi + 0.5 * pi);
             y + w * cos a + h * cos (a + 0.5 * pi)
               + w * cos (a + 0.5 * pi + 0.5 * pi)
               + h * cos (a + 0.5 * pi + 0.5 * pi + 0.5 * pi) ].
Proof.
  intros Hb Hn. unfold rectangle. cbn [for_each seq].
  destruct (line_end_point points x y rest w a n Hb Hn) as [p1 [-> B1]].
  cbn [bind Nat.modulo Nat.divmod Nat.eqb fst snd Nat.sub].
  destruct (line_end_point p1 _ _ [] h (a + 0.5 * pi) n B1 Hn) as [p2 [-> B2]].
  cbn [bind Nat.modulo Nat.divmod Nat.eqb fst snd Nat.sub].
  destruct (line_end_point p2 _ _ [] w (a + 0.5 * pi + 0.5 * pi) n B2 Hn)
    as [p3 [-> B3]].
  cbn [bind Nat.modulo Nat.divmod Nat.eqb fst snd Nat.sub].
  destruct (line_end_point p3 _ _ [] h
              (a + 0.5 * pi + 0.5 * pi + 0.5 * pi) n B3 Hn)
    as [p4 [-> B4]].
  cbn [bind fst snd]. exists p4. split; [reflexivity|]. exact B4.
Qed.

Lemma rectangle_end_point_reference :
  back [[0; 0]] = Returns [0; 0] /\ (1 <= 4)%nat /\
  exists points',
    rectangle [[0; 0]] 20 10 0 4 = Returns points'
    /\ back points'
       = Returns
           [ 0 + 20 * sin 0 + 10 * sin (0 + 0.5 * pi)
               + 20 * sin (0 + 0.5 * pi + 0.5 * pi)
               + 10 * sin (0 + 0.5 * pi + 0.5 * pi + 0.5 * pi);
             0 + 20 * cos 0 + 10 * cos (0 + 0.5 * pi)
               + 20 * cos (0 + 0.5 * pi + 0.5 * pi)
               + 10 * cos (0 + 0.5 * pi + 0.5 * pi + 0.5 * pi) ].
Proof.
  split; [reflexivity|]. split; [lia|].
  apply (rectangle_end_point [[0; 0]] 0 0 [] 20 10 0 4); [reflexivity | lia].
Defined.

(** ** The round trip over a thousand kilometres *)

Lemma distance_of_destination_thousand_km :
  distance 0 0
    (latitude_of (destination 0 0 1000000 30 false))
    (longitude_of (destination 0 0 1000000 30 false)) false
  = 1000000.
Proof.
  pose proof pi_pos as Hp. pose proof pi_lt_PI as HPI.
  pose proof PI_4 as HPI4. pose proof PI2_1 as HPI2.
  apply (distance_of_destination 0 0 1000000 30).
  - lra.
  - unfold earthRadius. nra.
  - unfold destination_unnormalised, longitude_of. cbv zeta. cbn [nth].
    rewrite degrees_of_radians_plus.
    replace (radiansFromDegrees 0) with 0
      by (unfold radiansFromDegrees, Rdiv; ring).
    rewrite sin_0, cos_0.
    set (dl := 1000000 / earthRadius).
    assert (Hdl : 0 < dl < 1).
    { unfold dl, earthRadius. lra. }
    set (th := radiansFromDegrees 30).
    assert (Hth : 0 <= th <= PI).
    { unfold th, radiansFromDegrees. lra. }
    assert (Hx : 0 < cos dl) by (apply cos_gt_0; lra).
    assert (Hy : 0 <= sin th * sin dl * 1).
    { rewrite Rmult_1_r. apply Rmult_le_pos; apply sin_ge_0; lra. }
    replace (cos dl - 0 * (0 * cos dl + 1 * sin dl * cos th)) with (cos dl)
      by ring.
    pose proof (atan2_quadrant _ _ Hy (Rlt_le _ _ Hx)) as [L U].
    set (t := atan2 (sin th * sin dl * 1) (cos dl)) in *.
    assert (Hk : 0 <= t * 180 / pi <= 120).
    { split.
      - apply Rmult_le_reg_r with pi; [exact Hp|].
        replace (t * 180 / pi * pi) with (t * 180) by (field; lra).
        lra.
      - apply Rmult_le_reg_r with pi; [exact Hp|].
        replace (t * 180 / pi * pi) with (t * 180) by (field; lra).
        unfold pi in *. lra. }
    lra.
Defined.
